(** * Spectral heart-rate estimator ([signal_processing/ecg_spectral.py])

    A shallow embedding of [spectral_heart_rate] and [_check_feasibility],
    and the properties of the estimator stated in the specification.

    Modelling conventions.
    - A NumPy [float64] is an exact rational ([Qc], canonical fractions, so
      that equality is Leibniz equality) or one of the three non-finite
      values.  Rounding is not modelled, and the two signed zeros are
      identified: a positive number divided by zero is [+inf].
    - Python exceptions are values of [exn]; a computation that may raise
      has type [result A].
    - [scipy.signal.welch] and the configured default band
      [FeatureCfg.spectral_hr_fs_band] are not part of the module; they are
      parameters of the estimator.
    - The [verbose] argument only controls printing and is left out. *)

From Stdlib Require Import QArith Qcanon ZArith List String Ascii Bool Lia.
From Stdlib Require Import Sorted Permutation Lqa.
Import ListNotations.

Local Open Scope string_scope.

(** ** Exceptions and the error monad *)

Inductive exn : Type :=
| AssertionError (msg : string)
| ValueError (msg : string)
| IndexError (msg : string).

Inductive result (A : Type) : Type :=
| Ok (a : A)
| Raise (e : exn).

Arguments Ok {A} a.
Arguments Raise {A} e.

Definition bind {A B : Type} (c : result A) (k : A -> result B) : result B :=
  match c with
  | Ok a => k a
  | Raise e => Raise e
  end.

Notation "x <- c ;; k" := (bind c (fun x => k))
  (at level 61, c at next level, right associativity).
Notation "' p <- c ;; k" := (bind c (fun x => let p := x in k))
  (at level 61, p pattern, c at next level, right associativity).
Notation "c ;;; k" := (bind c (fun _ => k))
  (at level 61, right associativity).

(** [assert cond, msg] *)
Definition assert_ (cond : bool) (msg : string) : result unit :=
  if cond then Ok tt else Raise (AssertionError msg).

Definition returns {A : Type} (c : result A) : Prop := exists a, c = Ok a.
Definition raises {A : Type} (c : result A) : Prop := exists e, c = Raise e.

(** ** Numbers *)

Module Np.

Definition leb (x y : Qc) : bool := Qle_bool x y.
Definition ltb (x y : Qc) : bool := negb (Qle_bool y x).

Definition of_Z (z : Z) : Qc := Q2Qc (inject_Z z).
Definition of_nat (n : nat) : Qc := of_Z (Z.of_nat n).

(** [float64]: a finite value, or [inf], [-inf], [nan]. *)
Inductive float64 : Type :=
| Fin (q : Qc)
| PInf
| NInf
| NaN.

Definition fadd (x y : float64) : float64 :=
  match x, y with
  | NaN, _ | _, NaN => NaN
  | Fin a, Fin b => Fin (a + b)
  | PInf, NInf | NInf, PInf => NaN
  | PInf, _ | _, PInf => PInf
  | NInf, _ | _, NInf => NInf
  end.

(** The infinity whose sign is that of [q]; [nan] at zero. *)
Definition signed_inf (q : Qc) : float64 :=
  match (q ?= 0)%Qc with
  | Gt => PInf
  | Lt => NInf
  | Eq => NaN
  end.

Definition fneg (x : float64) : float64 :=
  match x with
  | Fin a => Fin (- a)
  | PInf => NInf
  | NInf => PInf
  | NaN => NaN
  end.

Definition fmul (x y : float64) : float64 :=
  match x, y with
  | NaN, _ | _, NaN => NaN
  | Fin a, Fin b => Fin (a * b)
  | Fin a, PInf | PInf, Fin a => signed_inf a
  | Fin a, NInf | NInf, Fin a => fneg (signed_inf a)
  | PInf, PInf | NInf, NInf => PInf
  | PInf, NInf | NInf, PInf => NInf
  end.

(** Division as NumPy performs it on [float64]: a division by zero is not
    an error (only a warning), it yields [inf], [-inf] or [nan]. *)
Definition fdiv (x y : float64) : float64 :=
  match x, y with
  | NaN, _ | _, NaN => NaN
  | Fin a, Fin b =>
      if Qc_eq_bool b 0 then signed_inf a else Fin (a / b)
  | Fin _, PInf | Fin _, NInf => Fin 0
  | PInf, Fin b => if leb 0 b then PInf else NInf
  | NInf, Fin b => if leb 0 b then NInf else PInf
  | PInf, PInf | PInf, NInf | NInf, PInf | NInf, NInf => NaN
  end.

(** ** Arrays *)

(** [sorted(l)] / [np.sort(a)]: ascending. *)
Fixpoint insert (x : Qc) (l : list Qc) : list Qc :=
  match l with
  | [] => [x]
  | y :: t => if leb x y then x :: l else y :: insert x t
  end.

Fixpoint sort (l : list Qc) : list Qc :=
  match l with
  | [] => []
  | x :: t => insert x (sort t)
  end.

(** [a[i]] for an in-range index; [a[0]] and [a[-1]] raise on an empty
    array. *)
Definition first (a : list Qc) : result Qc :=
  match a with
  | [] => Raise (IndexError "index 0 is out of bounds for axis 0 with size 0")
  | x :: _ => Ok x
  end.

Definition final (a : list Qc) : result Qc :=
  match a with
  | [] => Raise (IndexError "index -1 is out of bounds for axis 0 with size 0")
  | x :: t => Ok (last t x)
  end.

(** [np.where(cond)[0]] for a condition over a one-dimensional array. *)
Definition where_ (cond : Qc -> bool) (a : list Qc) : list nat :=
  filter (fun i => cond (nth i a 0%Qc)) (seq 0 (List.length a)).

(** [a[inds]] (along the last axis). *)
Definition take (a : list Qc) (inds : list nat) : list Qc :=
  map (fun i => nth i a 0%Qc) inds.

(** [np.argmax] of one row: the index of the first occurrence of the
    maximum.  The scan replaces the candidate only by a strictly larger
    value. *)
Fixpoint argmax_scan (l : list Qc) (i best : nat) (vbest : Qc) : nat :=
  match l with
  | [] => best
  | x :: t =>
      if ltb vbest x then argmax_scan t (S i) i x
      else argmax_scan t (S i) best vbest
  end.

Definition argmax_row (row : list Qc) : nat :=
  match row with
  | [] => O
  | x :: t => argmax_scan t 1 0 x
  end.

(** [np.argmax(a, axis=-1)] for [a] of shape [(c, m)]: raises when the
    last axis is empty, whatever the number of rows. *)
Definition argmax (m : nat) (a : list (list Qc)) : result (list nat) :=
  if (m =? 0)%nat
  then Raise (ValueError "attempt to get argmax of an empty sequence")
  else Ok (map argmax_row a).

Fixpoint dot (a b : list Qc) : Qc :=
  match a, b with
  | x :: a', y :: b' => (x * y + dot a' b')%Qc
  | _, _ => 0%Qc
  end.

Definition sum (a : list Qc) : Qc := fold_right Qcplus 0%Qc a.

(** [a * mask] for a float row and an integer row. *)
Fixpoint mul_mask (a : list Qc) (mask : list Z) : list Qc :=
  match a, mask with
  | x :: a', z :: mask' => (x * of_Z z)%Qc :: mul_mask a' mask'
  | _, _ => []
  end.

(** [np.mean]: the sum divided by the number of elements ([nan] for an
    empty array). *)
Definition mean (a : list float64) : float64 :=
  fdiv (fold_left fadd a (Fin 0)) (Fin (of_nat (List.length a))).

(** A two-dimensional array of samples: its shape and its cells.  [.T]
    swaps the axes (NumPy returns a view with swapped strides), [.copy()]
    has the same contents. *)
Record ndarray : Type := mk_ndarray {
  shape : nat * nat;
  item : nat -> nat -> Qc
}.

Definition T (a : ndarray) : ndarray :=
  {| shape := (snd (shape a), fst (shape a));
     item := fun i j => item a j i |}.

Definition copy (a : ndarray) : ndarray := a.

End Np.

Import Np.

(** ** Strings *)

Definition lower_ascii (c : ascii) : ascii :=
  let n := nat_of_ascii c in
  if ((65 <=? n) && (n <=? 90))%nat then ascii_of_nat (n + 32) else c.

(** [s.lower()] *)
Fixpoint lower (s : string) : string :=
  match s with
  | EmptyString => EmptyString
  | String c t => String (lower_ascii c) (lower t)
  end.

(** [s in [...]] *)
Definition str_in (s : string) (l : list string) : bool :=
  existsb (String.eqb s) l.

(** ** The estimator *)

Definition qc (n : Z) (d : positive) : Qc := Q2Qc (n # d).

(** [_check_feasibility(freqs)] (lines 111-130).  [_f[0]] is evaluated
    first and raises on an empty array; Python's [and] evaluates [_f[-1]]
    only when the first comparison holds. *)
Definition _check_feasibility (freqs : list Qc) : result bool :=
  let _f := Np.sort (filter (fun f => ltb 0 f) freqs) in
  lo <- Np.first _f ;;
  if leb lo (of_Z 50 / of_Z 60)
  then hi <- Np.final _f ;; Ok (leb (of_Z 100 / of_Z 60) hi)
  else Ok false.

(** Lines 73-76: [hr_fs_band or FeatureCfg.spectral_hr_fs_band], the
    assertion on its length, [sorted], and the pair of its first and last
    element.  A band that is [None] or empty is falsy. *)
Definition or_default (hr_fs_band : option (list Qc)) (default : list Qc)
  : list Qc :=
  match hr_fs_band with
  | Some (x :: t) => x :: t
  | Some [] | None => default
  end.

Definition band_bounds (fs_band : list Qc) : result (Qc * Qc) :=
  assert_ (2 <=? List.length fs_band)%nat
    "frequency band of heart rate should at least has 2 bounds" ;;;
  let fs_band := Np.sort fs_band in
  Ok (nth 0 fs_band 0%Qc, last fs_band 0%Qc).

(** Line 84: [np.where((fs_band[0] <= freqs) & (freqs <= fs_band[-1]))[0]] *)
Definition inds_of_interest (band : Qc * Qc) (freqs : list Qc) : list nat :=
  Np.where_ (fun f => leb (fst band) f && leb f (snd band)) freqs.

(** Lines 98-101: one row of [psd_mask], of length [m]: zeros, then the
    slice [max(0, peak - n_nbh) : min(m, peak + n_nbh)] set to one.  A
    slice holds the indices from its start up to, and excluding, its
    stop. *)
Definition n_nbh : Z := 1.

Definition mask_row (m : nat) (peak : nat) : list Z :=
  let start := Z.max 0 (Z.of_nat peak - n_nbh) in
  let stop := Z.min (Z.of_nat m) (Z.of_nat peak + n_nbh) in
  map (fun j => if (start <=? Z.of_nat j)%Z && (Z.of_nat j <? stop)%Z
                then 1%Z else 0%Z)
      (seq 0 m).

Definition psd_mask (m : nat) (peak_inds : list nat) : list (list Z) :=
  map (mask_row m) peak_inds.

(** Line 102: [psd_of_interest * psd_mask] *)
Fixpoint apply_mask (psd : list (list Qc)) (mask : list (list Z))
  : list (list Qc) :=
  match psd, mask with
  | row :: psd', mrow :: mask' => Np.mul_mask row mrow :: apply_mask psd' mask'
  | _, _ => []
  end.

(** Line 104: [np.dot(psd, freqs) / np.sum(psd, axis=-1)], one quotient per
    lead. *)
Definition centroids (psd : list (list Qc)) (freqs : list Qc)
  : list float64 :=
  map (fun row => fdiv (Fin (Np.dot row freqs)) (Fin (Np.sum row))) psd.

(** Lines 105-109: the unit conversion.  A mode outside both lists reaches
    neither branch and the value is returned as it is. *)
Definition convert (mode : string) (ret_val : float64) : float64 :=
  if str_in (lower mode) ["hr"; "heart_rate"] then fmul (Fin (of_Z 60)) ret_val
  else if str_in (lower mode) ["rr"; "rr_interval"]
       then fdiv (Fin (of_Z 1000)) ret_val
       else ret_val.

(** Lines 84-104, from the frequency axis, the power array and the band to
    the averaged centroid frequency. *)
Definition mean_peak_frequency (freqs : list Qc) (psd : list (list Qc))
    (band : Qc * Qc) : result float64 :=
  let inds := inds_of_interest band freqs in
  let freqs_of_interest := Np.take freqs inds in
  let psd_of_interest := map (fun row => Np.take row inds) psd in
  let m := List.length inds in
  peak_inds <- Np.argmax m psd_of_interest ;;
  let psd_of_interest := apply_mask psd_of_interest (psd_mask m peak_inds) in
  Ok (Np.mean (centroids psd_of_interest freqs_of_interest)).

(** Lines 60-63: the signal with its leads along the first axis. *)
Definition channel_first (sig_fmt : string) (filtered_sig : ndarray)
  : ndarray :=
  if str_in (lower sig_fmt) ["channel_last"; "lead_last"]
  then Np.T filtered_sig
  else Np.copy filtered_sig.

Section Estimator.

(** [scipy.signal.welch(s, fs, axis=-1)]: the frequency axis and one row of
    power values per lead. *)
Variable welch : ndarray -> Qc -> result (list Qc * list (list Qc)).

(** [FeatureCfg.spectral_hr_fs_band] *)
Variable spectral_hr_fs_band : list Qc.

Definition spectral_heart_rate (filtered_sig : ndarray) (fs : Qc)
    (hr_fs_band : option (list Qc)) (sig_fmt : string) (mode : string)
  : result float64 :=
  assert_ (str_in (lower sig_fmt)
             ["channel_first"; "lead_first"; "channel_last"; "lead_last"])
          "" ;;;
  let s := channel_first sig_fmt filtered_sig in
  '(freqs, psd) <- welch s fs ;;
  feasible <- _check_feasibility freqs ;;
  if negb feasible
  then Raise (ValueError
                "it is not feasible to compute heart rate in frequency domain")
  else
    let fs_band := or_default hr_fs_band spectral_hr_fs_band in
    fs_band <- band_bounds fs_band ;;
    ret_val <- mean_peak_frequency freqs psd fs_band ;;
    Ok (convert mode ret_val).

End Estimator.

(** ** Vocabulary of the specification *)

(** The frequencies that remain once the non-positive ones are discarded. *)
Definition positive_freqs (freqs : list Qc) : list Qc :=
  filter (fun f => ltb 0 f) freqs.

Definition smallest_of (l : list Qc) (x : Qc) : Prop :=
  In x l /\ forall y, In y l -> (x <= y)%Qc.

Definition largest_of (l : list Qc) (x : Qc) : Prop :=
  In x l /\ forall y, In y l -> (y <= x)%Qc.

(** The minimum and the maximum of a collection of band bounds (zero for
    an empty collection). *)
Definition qmin (x y : Qc) : Qc := if leb x y then x else y.
Definition qmax (x y : Qc) : Qc := if leb x y then y else x.

Definition minimum (l : list Qc) : Qc :=
  match l with
  | [] => 0%Qc
  | x :: t => fold_left qmin t x
  end.

Definition maximum (l : list Qc) : Qc :=
  match l with
  | [] => 0%Qc
  | x :: t => fold_left qmax t x
  end.

(** The layout and mode tags the estimator accepts. *)
Definition lead_first_tag (sig_fmt : string) : Prop :=
  str_in (lower sig_fmt) ["channel_first"; "lead_first"] = true.

Definition lead_last_tag (sig_fmt : string) : Prop :=
  str_in (lower sig_fmt) ["channel_last"; "lead_last"] = true.

Definition valid_layout (sig_fmt : string) : Prop :=
  str_in (lower sig_fmt)
    ["channel_first"; "lead_first"; "channel_last"; "lead_last"] = true.

Definition heart_rate_mode (mode : string) : Prop :=
  str_in (lower mode) ["hr"; "heart_rate"] = true.

Definition rr_interval_mode (mode : string) : Prop :=
  str_in (lower mode) ["rr"; "rr_interval"] = true.

(** [p] is the index of the first maximum of [row]: no entry is larger,
    and every earlier entry is strictly smaller. *)
Definition first_maximum (row : list Qc) (p : nat) : Prop :=
  (p < List.length row)%nat /\
  (forall j, (j < List.length row)%nat -> (nth j row 0 <= nth p row 0)%Qc) /\
  (forall j, (j < p)%nat -> (nth j row 0 < nth p row 0)%Qc).

(** ** Example inputs *)

(** A signal of [c] leads and [n] samples from its rows. *)
Definition of_rows (c n : nat) (rows : list (list Qc)) : ndarray :=
  {| shape := (c, n); item := fun i j => nth j (nth i rows []) 0%Qc |}.

(** A power spectral density estimator that answers with a fixed frequency
    axis and a fixed power array, as [welch] would on one given signal. *)
Definition fixed_psd (freqs : list Qc) (psd : list (list Qc))
  : ndarray -> Qc -> result (list Qc * list (list Qc)) :=
  fun _ _ => Ok (freqs, psd).

(** A stand-in estimator that depends on the signal: on the axis [freqs],
    the power of lead [l] at bin [k] is the square of sample [k]. *)
Definition squares_psd (freqs : list Qc)
  : ndarray -> Qc -> result (list Qc * list (list Qc)) :=
  fun s _ =>
    Ok (freqs,
        map (fun l => map (fun k => (item s l k * item s l k)%Qc)
                          (seq 0 (List.length freqs)))
            (seq 0 (fst (shape s)))).

(** The axis of an 8-sample segment at [fs = 4]: 0, 0.5, 1, 1.5, 2 Hz. *)
Definition freqs5 : list Qc := [qc 0 1; qc 1 2; qc 1 1; qc 3 2; qc 2 1].

(** An axis from 1 Hz to 1.5 Hz. *)
Definition freqs_narrow : list Qc := [qc 1 1; qc 5 4; qc 3 2].

Definition default_band : list Qc := [qc 1 2; qc 4 1].

Definition sig_1x8 : ndarray :=
  of_rows 1 8 [[qc 1 1; qc 2 1; qc 3 1; qc 1 1; qc 0 1; qc 1 1; qc 0 1; qc 1 1]].

Definition sig_2x8 : ndarray :=
  of_rows 2 8 [[qc 1 1; qc 2 1; qc 3 1; qc 1 1; qc 0 1; qc 1 1; qc 0 1; qc 1 1];
               [qc 0 1; qc 1 1; qc 1 1; qc 2 1; qc 1 1; qc 0 1; qc 0 1; qc 0 1]].

(** ** Evaluation on concrete inputs *)

(** Closes [c = v] for closed [c] and [v] of type [result float64]. *)
Ltac eval_fin :=
  etransitivity;
  [ vm_compute; reflexivity
  | repeat first [ reflexivity
                 | apply Qc_is_canon; vm_compute; reflexivity
                 | apply f_equal ] ].

(** Closes equalities between closed lists of rationals. *)
Ltac eval_rows :=
  vm_compute;
  repeat first [ reflexivity
               | apply Qc_is_canon; vm_compute; reflexivity
               | apply f_equal2 ].

(** ** The centroid of one lead *)

(** Lines 89-104 for one lead: its centroid on the index set [inds]. *)
Definition lead_centroid (freqs : list Qc) (inds : list nat) (row : list Qc)
  : float64 :=
  let r := Np.take row inds in
  let w := Np.mul_mask r (mask_row (List.length inds) (Np.argmax_row r)) in
  fdiv (Fin (Np.dot w (Np.take freqs inds))) (Fin (Np.sum w)).

(** * Wave delineation reader ([unet/data_reader.py])

    The parts of [LUDB] that compute: the loop of [load_ann] that turns the
    annotation of one lead into waves, and [_auto_infer_units].  Reading
    the annotation file ([wfdb.rdann]) is outside; its result, the parallel
    arrays [symbol] and [sample], is the input. *)

Module Ludb.

Inductive error : Type :=
| IndexError (index size : nat)   (* index [index] is out of bounds for
                                     axis 0 with size [size] *)
| KeyError (key : string)
| ValueError (msg : string).

Inductive outcome (A : Type) : Type :=
| Return (a : A)
| Throw (e : error).

Arguments Return {A} a.
Arguments Throw {A} e.

Definition and_then {A B : Type} (c : outcome A) (k : A -> outcome B)
  : outcome B :=
  match c with
  | Return a => k a
  | Throw e => Throw e
  end.

Declare Scope ludb_scope.
Delimit Scope ludb_scope with ludb.
Notation "x <- c ;; k" := (and_then c (fun x => k))
  (at level 61, c at next level, right associativity) : ludb_scope.
Local Open Scope ludb_scope.

Fixpoint mapM {A B : Type} (f : A -> outcome B) (l : list A)
  : outcome (list B) :=
  match l with
  | [] => Return []
  | x :: t => y <- f x ;; ys <- mapM f t ;; Return (y :: ys)
  end.

(** [a[i]] for [i >= 0] *)
Definition getitem {A : Type} (a : list A) (i : nat) : outcome A :=
  match nth_error a i with
  | Some x => Return x
  | None => Throw (IndexError i (List.length a))
  end.

(** [ECGWaveForm] *)
Record ECGWaveForm : Type := mk_wave {
  name : string;
  onset : Z;
  offset : Z;
  peak : Z;
  duration : Qc
}.

(** The result of [wfdb.rdann]: the annotation symbols and the sample
    index of each. *)
Record Annotation : Type := mk_ann {
  symbol : list string;
  sample : list Z
}.

(** [self.freq = 500], [self.spacing = 1000 / self.freq] *)
Definition freq : Qc := of_Z 500.
Definition spacing : Qc := (of_Z 1000 / freq)%Qc.

(** [self._symbol_to_wavename = ED(N='qrs', p='pwave', t='twave')] *)
Definition _symbol_to_wavename : list (string * string) :=
  [("N", "qrs"); ("p", "pwave"); ("t", "twave")].

(** [d[key]] *)
Fixpoint lookup (d : list (string * string)) (key : string) : outcome string :=
  match d with
  | [] => Throw (KeyError key)
  | (k, v) :: d' => if String.eqb k key then Return v else lookup d' key
  end.

(** [np.where(np.isin(symbols, ['p', 'N', 't']))[0]], the scan started at
    index [i]. *)
Fixpoint where_isin (symbols : list string) (values : list string) (i : nat)
  : list nat :=
  match symbols with
  | [] => []
  | s :: t =>
      if str_in s values then i :: where_isin t values (S i)
      else where_isin t values (S i)
  end.

(** One turn of the loop of lines 284-307: the onset and the offset of the
    wave whose peak is the annotation number [peak_idx]. *)
Definition delineate (symbols : list string) (sample : list Z)
    (peak_idx : nat) (row_peak : Z) : outcome (Z * Z) :=
  if (peak_idx =? 0)%nat then
    let onset := row_peak in
    s <- getitem symbols (peak_idx + 1) ;;
    if String.eqb s ")"
    then offset <- getitem sample (peak_idx + 1) ;; Return (onset, offset)
    else Return (onset, row_peak)
  else if (Z.of_nat peak_idx =? Z.of_nat (List.length symbols) - 1)%Z then
    let offset := row_peak in
    s <- getitem symbols (peak_idx - 1) ;;
    if String.eqb s "("
    then onset <- getitem sample (peak_idx - 1) ;; Return (onset, offset)
    else Return (row_peak, offset)
  else
    s <- getitem symbols (peak_idx - 1) ;;
    onset <- (if String.eqb s "(" then getitem sample (peak_idx - 1)
              else Return row_peak) ;;
    s' <- getitem symbols (peak_idx + 1) ;;
    offset <- (if String.eqb s' ")" then getitem sample (peak_idx + 1)
               else Return row_peak) ;;
    Return (onset, offset).

(** Lines 278-325, for one lead: the waves of the annotation [ann].  The
    data frame has one row per peak; its columns are filled by the first
    loop, [duration] is computed from them, the index is set to the peak
    symbols, and the second loop builds the waves.  The sample indices are
    whole numbers, which the passage through [float] columns and back
    leaves as they are. *)
Definition lead_waves (ann : Annotation) : outcome (list ECGWaveForm) :=
  let symbols := symbol ann in
  let peak_inds := where_isin symbols ["p"; "N"; "t"] 0 in
  peaks <- mapM (getitem (sample ann)) peak_inds ;;
  bounds <- mapM (fun row => delineate symbols (sample ann) (fst row) (snd row))
                 (combine peak_inds peaks) ;;
  mapM (fun row =>
          let '(peak_idx, row_peak, (row_onset, row_offset)) := row in
          row_name <- getitem symbols peak_idx ;;
          wavename <- lookup _symbol_to_wavename row_name ;;
          Return {| name := wavename;
                    onset := row_onset;
                    offset := row_offset;
                    peak := row_peak;
                    duration := (of_Z (row_offset - row_onset) * spacing)%Qc |})
       (combine (combine peak_inds peaks) bounds).

(** An array of [float64] samples; a cell may be [nan] or infinite. *)
Record farray : Type := mk_farray {
  fshape : nat * nat;
  fitem : nat -> nat -> float64
}.

(** The cells of a two-dimensional array, row by row. *)
Definition cells (a : farray) : list float64 :=
  flat_map (fun i => map (fitem a i) (seq 0 (snd (fshape a))))
           (seq 0 (fst (fshape a))).

(** [np.abs] of one value *)
Definition qabs (x : Qc) : Qc := if leb 0 x then x else (- x)%Qc.

Definition fabs (x : float64) : float64 :=
  match x with
  | Fin a => Fin (qabs a)
  | PInf | NInf => PInf
  | NaN => NaN
  end.

(** [np.maximum] of two values: [nan] as soon as one of them is [nan]. *)
Definition fmax (x y : float64) : float64 :=
  match x, y with
  | NaN, _ | _, NaN => NaN
  | PInf, _ | _, PInf => PInf
  | NInf, z | z, NInf => z
  | Fin a, Fin b => Fin (qmax a b)
  end.

(** [np.max] of a flat array: raises on an empty one, propagates [nan]. *)
Definition np_max (a : list float64) : outcome float64 :=
  match a with
  | [] => Throw (ValueError
      "zero-size array to reduction operation maximum which has no identity")
  | x :: t => Return (fold_left fmax t x)
  end.

(** [x > c]: false when [x] is [nan]. *)
Definition fgt (x : float64) (c : Qc) : bool :=
  match x with
  | Fin a => ltb c a
  | PInf => true
  | NInf | NaN => false
  end.

(** [_auto_infer_units(data)] (lines 507-529) *)
Definition _MAX_mV : Qc := of_Z 20.

Definition _auto_infer_units (data : farray) : outcome string :=
  max_val <- np_max (map fabs (cells data)) ;;
  if fgt max_val _MAX_mV then Return "μV" else Return "mV".

(** The absolute value of [x] is greater than [c]; an infinity is, [nan]
    is not. *)
Definition exceeds (c : Qc) (x : float64) : Prop :=
  match x with
  | Fin a => (c < qabs a)%Qc
  | PInf | NInf => True
  | NaN => False
  end.

Definition notnan (x : float64) : bool :=
  match x with
  | NaN => false
  | _ => true
  end.

(** ** What the loop computes, in one rule *)

Definition peak_symbols : list string := ["p"; "N"; "t"].

Definition wavename (s : string) : string :=
  if String.eqb s "N" then "qrs"
  else if String.eqb s "p" then "pwave"
  else if String.eqb s "t" then "twave"
  else "".

(** The wave of the peak at position [i]: its onset is the sample of the
    annotation just before it when that one is an opening bracket, its
    offset the sample of the annotation just after it when that one is a
    closing bracket, and the sample of the peak itself otherwise. *)
Definition wave_of (ann : Annotation) (i : nat) : ECGWaveForm :=
  let pk := nth i (sample ann) 0%Z in
  let on := if (0 <? i)%nat && String.eqb (nth (i - 1) (symbol ann) "") "("
            then nth (i - 1) (sample ann) 0%Z else pk in
  let off := if (S i <? List.length (symbol ann))%nat
                && String.eqb (nth (S i) (symbol ann) "") ")"
             then nth (S i) (sample ann) 0%Z else pk in
  {| name := wavename (nth i (symbol ann) "");
     onset := on;
     offset := off;
     peak := pk;
     duration := (of_Z (off - on) * spacing)%Qc |}.

(** A fully delimited annotation: for every wave an opening bracket at
    its onset, its symbol at its peak, a closing bracket at its offset. *)
Definition delimited (ts : list (string * (Z * Z * Z))) : Annotation :=
  {| symbol := flat_map (fun t => ["("; fst t; ")"]) ts;
     sample := flat_map (fun t => let '(on, pk, off) := snd t in
                                  [on; pk; off]) ts |}.

Definition wave_of_triple (t : string * (Z * Z * Z)) : ECGWaveForm :=
  let '(s, (on, pk, off)) := t in
  {| name := wavename s;
     onset := on;
     offset := off;
     peak := pk;
     duration := (of_Z (off - on) * spacing)%Qc |}.

End Ludb.

(** ** Example inputs of the reader *)

(** A P wave and a QRS complex with both brackets, a T wave with its
    closing bracket only. *)
Definition ann_example : Ludb.Annotation :=
  {| Ludb.symbol := ["("; "p"; ")"; "("; "N"; ")"; "t"; ")"];
     Ludb.sample := [10; 20; 30; 40; 50; 60; 70; 80]%Z |}.

Definition ann_single_peak : Ludb.Annotation :=
  {| Ludb.symbol := ["N"]; Ludb.sample := [5%Z] |}.

(** An array of [c] rows and [n] columns of floats from its rows. *)
Definition of_frows (c n : nat) (rows : list (list float64)) : Ludb.farray :=
  {| Ludb.fshape := (c, n);
     Ludb.fitem := fun i j => nth j (nth i rows []) (Fin 0%Qc) |}.

(** One lead of two samples, [nan] and 1000. *)
Definition data_nan : Ludb.farray := of_frows 1 2 [[NaN; Fin (qc 1000 1)]].

(** One lead of two samples, 1 and -1000. *)
Definition data_large : Ludb.farray :=
  of_frows 1 2 [[Fin (qc 1 1); Fin (qc (-1000) 1)]].

(** The band-of-interest of the power array: its frequencies and, for
    every lead, its power values (lines 84-88). *)
Definition freqs_of_interest (band : Qc * Qc) (freqs : list Qc) : list Qc :=
  Np.take freqs (inds_of_interest band freqs).

Definition psd_of_interest (band : Qc * Qc) (freqs : list Qc)
    (psd : list (list Qc)) : list (list Qc) :=
  map (fun row => Np.take row (inds_of_interest band freqs)) psd.

(** Moves an order statement on [Qc] to [Q]. *)
Ltac qc2q :=
  unfold Qcle, Qclt, Qcminus, Qcopp, Qcplus, Qcmult, Q2Qc in *;
  cbn [this] in *;
  repeat (setoid_rewrite Qred_correct);
  repeat match goal with H : _ |- _ => setoid_rewrite Qred_correct in H end.

(** * Properties *)

(** ** Comparisons *)

Lemma leb_le (x y : Qc) : leb x y = true <-> (x <= y)%Qc.
Proof. unfold leb, Qcle. apply Qle_bool_iff. Qed.

Lemma ltb_lt (x y : Qc) : ltb x y = true <-> (x < y)%Qc.
Proof.
  unfold ltb, Qclt. rewrite negb_true_iff. split.
  - intros H. apply Qnot_le_lt. intros Hle.
    apply Qle_bool_iff in Hle. congruence.
  - intros H. destruct (Qle_bool y x) eqn:E; [|reflexivity].
    apply Qle_bool_iff in E. exfalso. exact (Qlt_not_le _ _ H E).
Qed.

Lemma leb_false_lt (x y : Qc) : leb x y = false <-> (y < x)%Qc.
Proof.
  rewrite <- ltb_lt. unfold ltb, leb. now rewrite negb_true_iff.
Qed.

Lemma ltb_false_le (x y : Qc) : ltb x y = false <-> (y <= x)%Qc.
Proof.
  rewrite <- leb_le. unfold ltb, leb. now rewrite negb_false_iff.
Qed.

Lemma Qcle_total (x y : Qc) : (x <= y)%Qc \/ (y <= x)%Qc.
Proof.
  destruct (Qclt_le_dec x y) as [H|H]; [left; now apply Qclt_le_weak | now right].
Qed.

(** ** Sorting *)

Lemma insert_perm (x : Qc) (l : list Qc) : Permutation (Np.insert x l) (x :: l).
Proof.
  induction l as [|y t IH]; simpl.
  - reflexivity.
  - destruct (leb x y).
    + reflexivity.
    + rewrite IH. apply perm_swap.
Qed.

Lemma sort_perm (l : list Qc) : Permutation (Np.sort l) l.
Proof.
  induction l as [|x t IH]; simpl.
  - reflexivity.
  - rewrite insert_perm. now constructor.
Qed.

Lemma insert_sorted (x : Qc) (l : list Qc) :
  StronglySorted Qcle l -> StronglySorted Qcle (Np.insert x l).
Proof.
  induction 1 as [|y t Hs IH Hall]; simpl.
  - repeat constructor.
  - destruct (leb x y) eqn:E.
    + apply leb_le in E. constructor.
      * now constructor.
      * constructor; [exact E|].
        eapply Forall_impl; [|exact Hall].
        intros z Hz. eapply Qcle_trans; eassumption.
    + apply leb_false_lt, Qclt_le_weak in E. constructor; [exact IH|].
      rewrite Forall_forall in *. intros z Hz.
      apply (Permutation_in _ (insert_perm x t)) in Hz.
      destruct Hz as [Hz|Hz]; [subst z; exact E | now apply Hall].
Qed.

Lemma sort_sorted (l : list Qc) : StronglySorted Qcle (Np.sort l).
Proof.
  induction l; simpl; [constructor | now apply insert_sorted].
Qed.

Lemma sort_length (l : list Qc) : List.length (Np.sort l) = List.length l.
Proof. apply Permutation_length, sort_perm. Qed.

Lemma sort_in (l : list Qc) (x : Qc) : In x (Np.sort l) <-> In x l.
Proof.
  split; apply Permutation_in; [|symmetry]; apply sort_perm.
Qed.

Lemma last_cons {A : Type} (l : list A) (a d : A) : last (a :: l) d = last l a.
Proof.
  revert a d. induction l as [|b t IH]; intros a d; [reflexivity|].
  change (last (a :: b :: t) d) with (last (b :: t) d).
  now rewrite !IH.
Qed.

Lemma sorted_last_max (l : list Qc) (x : Qc) :
  StronglySorted Qcle (x :: l) ->
  forall y, In y (x :: l) -> (y <= last l x)%Qc.
Proof.
  revert x. induction l as [|z t IH]; intros x Hs y Hy.
  - destruct Hy as [<-|[]]. apply Qcle_refl.
  - inversion Hs as [|? ? Hs' Hall]; subst.
    rewrite last_cons. destruct Hy as [<-|Hy].
    + eapply Qcle_trans; [|apply (IH z Hs'); now left].
      rewrite Forall_forall in Hall. apply Hall. now left.
    + now apply IH.
Qed.

Lemma sort_first_smallest (l : list Qc) (x : Qc) :
  Np.first (Np.sort l) = Ok x -> smallest_of l x.
Proof.
  intros H. pose proof (sort_sorted l) as Hs.
  destruct (Np.sort l) as [|y t] eqn:E; simpl in H; [discriminate|].
  injection H as ->. split.
  - apply sort_in. rewrite E. now left.
  - intros z Hz. apply sort_in in Hz. rewrite E in Hz.
    inversion Hs as [|? ? _ Hall]; subst. rewrite Forall_forall in Hall.
    destruct Hz as [<-|Hz]; [apply Qcle_refl | now apply Hall].
Qed.

Lemma sort_final_largest (l : list Qc) (x : Qc) :
  Np.final (Np.sort l) = Ok x -> largest_of l x.
Proof.
  intros H. pose proof (sort_sorted l) as Hs.
  destruct (Np.sort l) as [|y t] eqn:E; simpl in H; [discriminate|].
  injection H as <-. split.
  - apply sort_in. rewrite E. rewrite <- (last_cons t y y).
    destruct (@exists_last _ (y :: t)) as (l' & a & Ha); [discriminate|].
    rewrite Ha, last_last. rewrite in_app_iff. right. now left.
  - intros z Hz. apply sort_in in Hz. rewrite E in Hz.
    now apply sorted_last_max.
Qed.

Lemma smallest_unique (l : list Qc) (x y : Qc) :
  smallest_of l x -> smallest_of l y -> x = y.
Proof.
  intros [Hx Hx'] [Hy Hy']. apply Qcle_antisym; auto.
Qed.

Lemma largest_unique (l : list Qc) (x y : Qc) :
  largest_of l x -> largest_of l y -> x = y.
Proof.
  intros [Hx Hx'] [Hy Hy']. apply Qcle_antisym; auto.
Qed.

Lemma sort_nil (l : list Qc) : Np.sort l = [] <-> l = [].
Proof.
  split; intros H.
  - apply length_zero_iff_nil. rewrite <- sort_length, H. reflexivity.
  - now subst.
Qed.

Lemma first_sort_ok (l : list Qc) :
  l <> [] -> exists x, Np.first (Np.sort l) = Ok x.
Proof.
  intros H. destruct (Np.sort l) eqn:E.
  - apply (proj1 (sort_nil l)) in E. contradiction.
  - simpl. eauto.
Qed.

Lemma final_sort_ok (l : list Qc) :
  l <> [] -> exists x, Np.final (Np.sort l) = Ok x.
Proof.
  intros H. destruct (Np.sort l) eqn:E.
  - apply (proj1 (sort_nil l)) in E. contradiction.
  - simpl. eauto.
Qed.

Lemma positive_freqs_in (freqs : list Qc) (f : Qc) :
  In f (positive_freqs freqs) <-> In f freqs /\ (0 < f)%Qc.
Proof.
  unfold positive_freqs. rewrite filter_In, ltb_lt. reflexivity.
Qed.

Lemma positive_freqs_nil (freqs : list Qc) :
  positive_freqs freqs = [] <-> forall f, In f freqs -> (f <= 0)%Qc.
Proof.
  split.
  - intros H f Hf. destruct (Qclt_le_dec 0 f) as [Hlt|Hle]; [|exact Hle].
    assert (Hin : In f (positive_freqs freqs)) by now apply positive_freqs_in.
    rewrite H in Hin. destruct Hin.
  - intros H. destruct (positive_freqs freqs) as [|f t] eqn:E; [reflexivity|].
    assert (Hin : In f (positive_freqs freqs)) by (rewrite E; now left).
    apply positive_freqs_in in Hin. destruct Hin as [Hin Hpos].
    exfalso. exact (Qclt_not_le _ _ Hpos (H f Hin)).
Qed.

(** The feasibility check, case by case. *)
Lemma check_feasibility_cases (freqs : list Qc) :
  (positive_freqs freqs = [] /\
   _check_feasibility freqs =
     Raise (IndexError "index 0 is out of bounds for axis 0 with size 0")) \/
  (exists lo hi,
     smallest_of (positive_freqs freqs) lo /\
     largest_of (positive_freqs freqs) hi /\
     _check_feasibility freqs =
       Ok (leb lo (of_Z 50 / of_Z 60) && leb (of_Z 100 / of_Z 60) hi)).
Proof.
  unfold _check_feasibility. fold (positive_freqs freqs).
  destruct (positive_freqs freqs) as [|f t] eqn:E.
  - left. split; reflexivity.
  - right. rewrite <- E.
    assert (Hne : positive_freqs freqs <> []) by (rewrite E; discriminate).
    destruct (first_sort_ok _ Hne) as [lo Hlo].
    destruct (final_sort_ok _ Hne) as [hi Hhi].
    exists lo, hi. split; [now apply sort_first_smallest|].
    split; [now apply sort_final_largest|].
    rewrite Hlo. simpl. destruct (leb lo _); simpl; [|reflexivity].
    rewrite Hhi. reflexivity.
Qed.

(** ** The feasibility check *)

(** C10.  The feasibility check is partial: on a frequency axis with no
    strictly positive frequency (all zero, or empty) it indexes an empty
    array and raises [IndexError]; it returns a boolean exactly when at
    least one frequency is strictly positive. *)
Theorem check_feasibility_partial (freqs : list Qc) :
  ((forall f, In f freqs -> (f <= 0)%Qc) ->
   _check_feasibility freqs =
     Raise (IndexError "index 0 is out of bounds for axis 0 with size 0")) /\
  (returns (_check_feasibility freqs) <->
   exists f, In f freqs /\ (0 < f)%Qc).
Proof.
  split.
  - intros H. apply positive_freqs_nil in H.
    destruct (check_feasibility_cases freqs)
      as [[_ Hr]|(lo & _ & [Hin _] & _)]; [exact Hr|].
    rewrite H in Hin. destruct Hin.
  - split.
    + intros [b Hb].
      destruct (check_feasibility_cases freqs)
        as [[_ Hr]|(lo & _ & [Hin _] & _)]; [congruence|].
      exists lo. now apply positive_freqs_in.
    + intros (f & Hin & Hpos).
      destruct (check_feasibility_cases freqs)
        as [[Hnil _]|(lo & hi & _ & _ & Hr)].
      * exfalso. rewrite positive_freqs_nil in Hnil.
        exact (Qclt_not_le _ _ Hpos (Hnil f Hin)).
      * rewrite Hr. eexists. reflexivity.
Qed.

Lemma check_feasibility_partial_witness :
  (forall f, In f [qc 0 1; qc 0 1] -> (f <= 0)%Qc) /\
  _check_feasibility [qc 0 1; qc 0 1] =
    Raise (IndexError "index 0 is out of bounds for axis 0 with size 0").
Proof.
  assert (H : forall f, In f [qc 0 1; qc 0 1] -> (f <= 0)%Qc).
  { intros f [<-|[<-|[]]]; apply Qcle_refl. }
  split; [exact H|].
  exact (proj1 (check_feasibility_partial [qc 0 1; qc 0 1]) H).
Defined.

Lemma check_feasibility_true (freqs : list Qc) :
  _check_feasibility freqs = Ok true <->
  exists lo hi,
    smallest_of (positive_freqs freqs) lo /\
    largest_of (positive_freqs freqs) hi /\
    (lo <= of_Z 50 / of_Z 60)%Qc /\ (of_Z 100 / of_Z 60 <= hi)%Qc.
Proof.
  destruct (check_feasibility_cases freqs)
    as [[Hnil Hr]|(lo & hi & Hlo & Hhi & Hr)]; rewrite Hr.
  - split; [discriminate|].
    intros (lo & _ & [Hin _] & _). rewrite Hnil in Hin. destruct Hin.
  - split.
    + intros H. injection H as H. apply andb_true_iff in H.
      destruct H as [H1 H2]. apply leb_le in H1, H2.
      exists lo, hi. auto.
    + intros (lo' & hi' & Hlo' & Hhi' & H1 & H2).
      rewrite (smallest_unique _ _ _ Hlo Hlo'), (largest_unique _ _ _ Hhi Hhi').
      apply leb_le in H1, H2. now rewrite H1, H2.
Qed.


(** ** Layout and mode tags *)

Lemma str_in_iff (s : string) (l : list string) : str_in s l = true <-> In s l.
Proof.
  unfold str_in. rewrite existsb_exists. split.
  - intros (x & Hx & He). apply String.eqb_eq in He. now subst.
  - intros H. exists s. split; [exact H | apply String.eqb_refl].
Qed.

Lemma lead_first_valid (fmt : string) :
  lead_first_tag fmt ->
  valid_layout fmt /\
  str_in (lower fmt) ["channel_last"; "lead_last"] = false.
Proof.
  unfold lead_first_tag, valid_layout. rewrite str_in_iff.
  intros [<-|[<-|[]]]; split; reflexivity.
Qed.

Lemma lead_last_valid (fmt : string) :
  lead_last_tag fmt -> valid_layout fmt.
Proof.
  unfold lead_last_tag, valid_layout. rewrite str_in_iff.
  intros [<-|[<-|[]]]; reflexivity.
Qed.

Lemma rr_mode_not_hr (mode : string) :
  rr_interval_mode mode -> str_in (lower mode) ["hr"; "heart_rate"] = false.
Proof.
  unfold rr_interval_mode. rewrite str_in_iff.
  intros [<-|[<-|[]]]; reflexivity.
Qed.

Lemma T_involutive (a : ndarray) : Np.T (Np.T a) = a.
Proof. destruct a as [[r c] f]. reflexivity. Qed.

Lemma channel_first_of_first (fmt : string) (sig : ndarray) :
  lead_first_tag fmt -> channel_first fmt sig = sig.
Proof.
  intros H. unfold channel_first.
  now rewrite (proj2 (lead_first_valid fmt H)).
Qed.

Lemma channel_first_of_last (fmt : string) (sig : ndarray) :
  lead_last_tag fmt -> channel_first fmt (Np.T sig) = sig.
Proof.
  intros H. unfold channel_first. rewrite H. apply T_involutive.
Qed.

(** ** The unit conversion *)

Lemma convert_hr (mode : string) (f : float64) :
  heart_rate_mode mode -> convert mode f = fmul (Fin (of_Z 60)) f.
Proof. intros H. unfold convert. now rewrite H. Qed.

Lemma convert_rr (mode : string) (f : float64) :
  rr_interval_mode mode -> convert mode f = fdiv (Fin (of_Z 1000)) f.
Proof.
  intros H. unfold convert. now rewrite (rr_mode_not_hr mode H), H.
Qed.

Lemma Qc_eq_bool_false (x y : Qc) : x <> y -> Qc_eq_bool x y = false.
Proof.
  intros H. destruct (Qc_eq_bool x y) eqn:E; [|reflexivity].
  apply Qc_eq_bool_correct in E. contradiction.
Qed.

Lemma Qc_eq_bool_refl (x : Qc) : Qc_eq_bool x x = true.
Proof.
  unfold Qc_eq_bool. destruct (Qc_eq_dec x x); [reflexivity|congruence].
Qed.

(** Both conversions applied to one frequency: [1000 / f] is
    [60000 / (60 * f)], also when [f] is zero or not finite. *)
Lemma rr_of_hr (f : float64) :
  fdiv (Fin (of_Z 1000)) f
  = fdiv (Fin (of_Z 60000)) (fmul (Fin (of_Z 60)) f).
Proof.
  destruct f as [q| | |]; try reflexivity.
  simpl. destruct (Qc_eq_dec q 0) as [->|Hq].
  - reflexivity.
  - assert (H60 : (of_Z 60 * q)%Qc <> 0%Qc).
    { intros H. apply Qcmult_integral in H. destruct H as [H|H]; [|auto].
      discriminate H. }
    rewrite (Qc_eq_bool_false _ _ Hq), (Qc_eq_bool_false _ _ H60).
    f_equal. change (of_Z 60000) with (of_Z 1000 * of_Z 60)%Qc.
    field. split; [exact Hq | discriminate].
Qed.

(** ** The band *)

Lemma qmin_cases (x y : Qc) :
  (qmin x y = x \/ qmin x y = y) /\ (qmin x y <= x)%Qc /\ (qmin x y <= y)%Qc.
Proof.
  unfold qmin. destruct (leb x y) eqn:E.
  - apply leb_le in E. repeat split; auto. apply Qcle_refl.
  - apply leb_false_lt, Qclt_le_weak in E. repeat split; auto.
    apply Qcle_refl.
Qed.

Lemma qmax_cases (x y : Qc) :
  (qmax x y = x \/ qmax x y = y) /\ (x <= qmax x y)%Qc /\ (y <= qmax x y)%Qc.
Proof.
  unfold qmax. destruct (leb x y) eqn:E.
  - apply leb_le in E. repeat split; auto. apply Qcle_refl.
  - apply leb_false_lt, Qclt_le_weak in E. repeat split; auto.
    apply Qcle_refl.
Qed.

Lemma fold_qmin_smallest (t : list Qc) (x : Qc) :
  smallest_of (x :: t) (fold_left qmin t x).
Proof.
  revert x. induction t as [|a t IH]; intros x; simpl.
  - split; [now left|]. intros y [<-|[]]. apply Qcle_refl.
  - destruct (IH (qmin x a)) as [Hin Hle].
    destruct (qmin_cases x a) as (Hc & Hx & Ha). split.
    + destruct Hin as [Hin|Hin]; [|now right; right].
      rewrite <- Hin. destruct Hc as [-> | ->]; [now left | now right; left].
    + intros y [<-|[<-|Hy]].
      * eapply Qcle_trans; [apply Hle; now left | exact Hx].
      * eapply Qcle_trans; [apply Hle; now left | exact Ha].
      * apply Hle. now right.
Qed.

Lemma fold_qmax_largest (t : list Qc) (x : Qc) :
  largest_of (x :: t) (fold_left qmax t x).
Proof.
  revert x. induction t as [|a t IH]; intros x; simpl.
  - split; [now left|]. intros y [<-|[]]. apply Qcle_refl.
  - destruct (IH (qmax x a)) as [Hin Hle].
    destruct (qmax_cases x a) as (Hc & Hx & Ha). split.
    + destruct Hin as [Hin|Hin]; [|now right; right].
      rewrite <- Hin. destruct Hc as [-> | ->]; [now left | now right; left].
    + intros y [<-|[<-|Hy]].
      * eapply Qcle_trans; [exact Hx | apply Hle; now left].
      * eapply Qcle_trans; [exact Ha | apply Hle; now left].
      * apply Hle. now right.
Qed.

(** With at least two bounds the band is the pair of the minimum and the
    maximum of the collection. *)
Lemma band_bounds_min_max (fs_band : list Qc) :
  (2 <= List.length fs_band)%nat ->
  band_bounds fs_band = Ok (minimum fs_band, maximum fs_band).
Proof.
  intros Hlen. unfold band_bounds.
  destruct (Nat.leb_spec 2 (List.length fs_band)) as [_|Hlt]; [|lia].
  simpl. destruct fs_band as [|x t]; [simpl in Hlen; lia|].
  assert (Hne : x :: t <> []) by discriminate.
  destruct (first_sort_ok _ Hne) as [lo Hlo].
  destruct (final_sort_ok _ Hne) as [hi Hhi].
  pose proof (sort_first_smallest _ _ Hlo) as Hs.
  pose proof (sort_final_largest _ _ Hhi) as Hl.
  unfold minimum, maximum.
  rewrite (smallest_unique _ _ _ (fold_qmin_smallest t x) Hs).
  rewrite (largest_unique _ _ _ (fold_qmax_largest t x) Hl).
  destruct (Np.sort (x :: t)) as [|y s]; [discriminate|].
  simpl in Hlo, Hhi. injection Hlo as ->. injection Hhi as <-.
  now rewrite last_cons.
Qed.

Lemma band_bounds_short (fs_band : list Qc) :
  (List.length fs_band < 2)%nat ->
  band_bounds fs_band =
    Raise (AssertionError
             "frequency band of heart rate should at least has 2 bounds").
Proof.
  intros Hlen. unfold band_bounds.
  destruct (Nat.leb_spec 2 (List.length fs_band)) as [Hle|_]; [lia|].
  reflexivity.
Qed.

(** ** The peak and its neighbourhood *)

Lemma skipn_cons_nth {A : Type} (i : nat) (row t : list A) (x d : A) :
  skipn i row = x :: t ->
  nth i row d = x /\ skipn (S i) row = t /\ (i < List.length row)%nat.
Proof.
  revert row. induction i as [|i IH]; intros row H.
  - destruct row as [|y r]; [discriminate|]. simpl in H.
    injection H as -> ->. simpl. repeat split. lia.
  - destruct row as [|y r]; [discriminate|]. simpl in H.
    destruct (IH r H) as (Hn & Hs & Hl). simpl. repeat split; auto. lia.
Qed.

(** The scan keeps the first maximum of the part of the row read so far. *)
Lemma argmax_scan_first_maximum (row l : list Qc) (i best : nat) (vbest : Qc) :
  skipn i row = l ->
  (i <= List.length row)%nat ->
  (best < i)%nat ->
  nth best row 0%Qc = vbest ->
  (forall j, (j < i)%nat -> (nth j row 0 <= vbest)%Qc) ->
  (forall j, (j < best)%nat -> (nth j row 0 < vbest)%Qc) ->
  first_maximum row (Np.argmax_scan l i best vbest).
Proof.
  revert i best vbest.
  induction l as [|x t IH]; intros i best vbest Hs Hi Hb Hv Hle Hlt; simpl.
  - assert (i = List.length row).
    { apply (f_equal (@List.length Qc)) in Hs. rewrite length_skipn in Hs.
      simpl in Hs. lia. }
    subst i. unfold first_maximum. rewrite Hv. auto.
  - destruct (skipn_cons_nth i row t x 0%Qc Hs) as (Hn & Hs' & Hl).
    destruct (ltb vbest x) eqn:E.
    + apply ltb_lt in E. apply IH; auto; try lia.
      * intros j Hj. destruct (Nat.eq_dec j i) as [->|Hne].
        -- rewrite Hn. apply Qcle_refl.
        -- apply Qclt_le_weak. eapply Qcle_lt_trans; [|exact E].
           apply Hle. lia.
      * intros j Hj. eapply Qcle_lt_trans; [|exact E]. now apply Hle.
    + apply ltb_false_le in E. apply IH; auto; try lia.
      intros j Hj. destruct (Nat.eq_dec j i) as [->|Hne].
      * now rewrite Hn.
      * apply Hle. lia.
Qed.

Lemma argmax_row_first_maximum (row : list Qc) :
  row <> [] -> first_maximum row (Np.argmax_row row).
Proof.
  destruct row as [|x t]; [congruence|]. intros _. unfold Np.argmax_row.
  apply argmax_scan_first_maximum; simpl; auto; try lia.
  intros j Hj. assert (j = 0)%nat as -> by lia. apply Qcle_refl.
Qed.

Lemma first_maximum_unique (row : list Qc) (p q : nat) :
  first_maximum row p -> first_maximum row q -> p = q.
Proof.
  intros (Hp & Hpm & Hpf) (Hq & Hqm & Hqf).
  destruct (Nat.lt_trichotomy p q) as [H|[H|H]]; [|exact H|].
  - exfalso. exact (Qclt_not_le _ _ (Hqf p H) (Hpm q Hq)).
  - exfalso. exact (Qclt_not_le _ _ (Hpf q H) (Hqm p Hp)).
Qed.

Lemma first_maxima_unique (rows : list (list Qc)) (ps qs : list nat) :
  Forall2 first_maximum rows ps -> Forall2 first_maximum rows qs -> ps = qs.
Proof.
  intros H. revert qs.
  induction H as [|row p rows ps Hp _ IH]; intros qs Hq;
    inversion Hq as [|? q ? qs' Hq1 Hq2]; subst; [reflexivity|].
  f_equal; [exact (first_maximum_unique row p q Hp Hq1) | now apply IH].
Qed.

Lemma take_length (a : list Qc) (inds : list nat) :
  List.length (Np.take a inds) = List.length inds.
Proof. apply length_map. Qed.

(** On a non-empty band-of-interest, [argmax] returns for every lead the
    first index at which the power of the lead is maximal. *)
Lemma peak_is_first_maximum (freqs : list Qc) (psd : list (list Qc))
    (band : Qc * Qc) :
  inds_of_interest band freqs <> [] ->
  exists peak_inds,
    Np.argmax (List.length (inds_of_interest band freqs))
      (map (fun row => Np.take row (inds_of_interest band freqs)) psd)
    = Ok peak_inds /\
    Forall2 first_maximum
      (map (fun row => Np.take row (inds_of_interest band freqs)) psd)
      peak_inds.
Proof.
  intros Hne. set (inds := inds_of_interest band freqs) in *.
  unfold Np.argmax.
  destruct (Nat.eqb_spec (List.length inds) 0) as [H0|_].
  - apply length_zero_iff_nil in H0. contradiction.
  - eexists. split; [reflexivity|].
    induction psd as [|row psd IH]; simpl; constructor; [|exact IH].
    apply argmax_row_first_maximum. intros Hnil.
    apply (f_equal (@List.length Qc)) in Hnil.
    rewrite take_length in Hnil. simpl in Hnil.
    apply length_zero_iff_nil in Hnil. contradiction.
Qed.

(** One row of the mask, entry by entry: the bins kept are the peak and
    the bin below it. *)
Lemma mask_row_nth (m p j : nat) :
  (j < m)%nat ->
  nth j (mask_row m p) 0%Z
  = if ((j =? p) || (S j =? p))%nat then 1%Z else 0%Z.
Proof.
  intros Hj. unfold mask_row, n_nbh.
  set (f := fun k : nat => _).
  assert (Hnth : forall d, nth j (map f (seq 0 m)) d = f j).
  { intros d. rewrite (nth_indep _ d (f 0%nat)) by now rewrite length_map, length_seq.
    rewrite map_nth, seq_nth by exact Hj. reflexivity. }
  rewrite Hnth. subst f. cbv beta.
  destruct (Nat.eqb_spec j p), (Nat.eqb_spec (S j) p),
    (Z.leb_spec (Z.max 0 (Z.of_nat p - 1)) (Z.of_nat j)),
    (Z.ltb_spec (Z.of_nat j) (Z.min (Z.of_nat m) (Z.of_nat p + 1)));
    simpl; try reflexivity; lia.
Qed.

Lemma mask_row_length (m p : nat) : List.length (mask_row m p) = m.
Proof. unfold mask_row. now rewrite length_map, length_seq. Qed.

Lemma mul_mask_nth (a : list Qc) (mask : list Z) (j : nat) :
  (j < List.length a)%nat ->
  (j < List.length mask)%nat ->
  nth j (Np.mul_mask a mask) 0%Qc = (nth j a 0 * of_Z (nth j mask 0%Z))%Qc.
Proof.
  revert mask j. induction a as [|x a IH]; intros [|z mask] j Ha Hm;
    simpl in *; try lia.
  destruct j as [|j]; [reflexivity|]. apply IH; lia.
Qed.

(** The masked power of one lead: the power at the peak and at the bin
    below it, zero everywhere else; no index leaves the row. *)
Lemma masked_row_nth (row : list Qc) (p j : nat) :
  (j < List.length row)%nat ->
  nth j (Np.mul_mask row (mask_row (List.length row) p)) 0%Qc
  = if ((j =? p) || (S j =? p))%nat then nth j row 0%Qc else 0%Qc.
Proof.
  intros Hj. rewrite mul_mask_nth by (rewrite ?mask_row_length; exact Hj).
  rewrite mask_row_nth by exact Hj.
  destruct ((j =? p) || (S j =? p))%nat.
  - apply Qcmult_1_r.
  - apply Qcmult_0_r.
Qed.

(** ** Concrete evaluations *)

(** C1 (the code at an interior peak).  For a band-of-interest row
    [2, 5, 4, 1] the peak is at index 1 and the mask is [1, 1, 0, 0]: it
    keeps the bins 0 and 1 and zeroes bin 2, the upper neighbour of the
    peak; the estimate is the centroid of the bins 0 and 1 alone,
    (2 * 0.5 + 5 * 1) / 7 Hz, that is 360/7 beats per minute. *)
Theorem mask_drops_upper_neighbour :
  Np.argmax 4 [[qc 2 1; qc 5 1; qc 4 1; qc 1 1]] = Ok [1%nat] /\
  psd_mask 4 [1%nat] = [[1; 1; 0; 0]%Z] /\
  apply_mask [[qc 2 1; qc 5 1; qc 4 1; qc 1 1]] (psd_mask 4 [1%nat])
  = [[qc 2 1; qc 5 1; qc 0 1; qc 0 1]] /\
  spectral_heart_rate
    (fixed_psd freqs5 [[qc 1 1; qc 2 1; qc 5 1; qc 4 1; qc 1 1]])
    default_band sig_1x8 (qc 4 1) None "channel_first" "hr"
  = Ok (Fin (qc 360 7)).
Proof.
  split; [reflexivity|]. split; [reflexivity|]. split; [eval_rows | eval_fin].
Qed.

(** A tie between two maximal bins resolves to the lower index. *)
Example argmax_tie :
  Np.argmax 4 [[qc 1 1; qc 5 1; qc 5 1; qc 2 1]] = Ok [1%nat].
Proof. reflexivity. Qed.

(** A mode outside the recognised names is not rejected: the averaged
    frequency is returned in Hz, without conversion. *)
Example unknown_mode_returns_frequency :
  spectral_heart_rate
    (fixed_psd freqs5 [[qc 1 1; qc 5 1; qc 3 1; qc 1 1; qc 1 1]])
    default_band sig_1x8 (qc 4 1) None "channel_first" "bpm"
  = Ok (Fin (qc 1 2)).
Proof. eval_fin. Qed.

(** When the masked power of a lead sums to zero its centroid is 0/0: the
    estimate is [nan] in both modes, and no error is raised. *)
Example zero_power_returns_nan :
  spectral_heart_rate
    (fixed_psd freqs5 [[qc 0 1; qc 0 1; qc 0 1; qc 0 1; qc 0 1]])
    default_band sig_1x8 (qc 4 1) None "channel_first" "rr"
  = Ok NaN.
Proof. reflexivity. Qed.
Section Properties.

Variable welch : ndarray -> Qc -> result (list Qc * list (list Qc)).
Variable spectral_hr_fs_band : list Qc.

Local Abbreviation estimate := (spectral_heart_rate welch spectral_hr_fs_band).

(** The estimator raises as soon as the feasibility check does not answer
    [True]. *)
Lemma infeasible_raises (sig : ndarray) (fs : Qc) (band : option (list Qc))
    (fmt mode : string) (freqs : list Qc) (psd : list (list Qc)) :
  welch (channel_first fmt sig) fs = Ok (freqs, psd) ->
  _check_feasibility freqs <> Ok true ->
  raises (estimate sig fs band fmt mode).
Proof.
  intros Hw Hf. unfold spectral_heart_rate, raises.
  destruct (assert_ _ _) as [[]|e]; simpl; [|eauto].
  rewrite Hw. simpl.
  destruct (_check_feasibility freqs) as [[|]|e]; simpl; eauto.
  congruence.
Qed.

(** C2.  A frequency axis passes the feasibility check if and only if,
    among the frequencies left after the non-positive ones are discarded,
    the smallest is at most 50/60 Hz and the largest at least 100/60 Hz;
    and whenever the axis computed from the signal does not pass, the
    estimator raises an error instead of returning an estimate. *)
Theorem feasibility_criterion (freqs : list Qc) :
  (_check_feasibility freqs = Ok true <->
   exists lo hi,
     smallest_of (positive_freqs freqs) lo /\
     largest_of (positive_freqs freqs) hi /\
     (lo <= of_Z 50 / of_Z 60)%Qc /\ (of_Z 100 / of_Z 60 <= hi)%Qc) /\
  (forall sig fs band fmt mode psd,
     welch (channel_first fmt sig) fs = Ok (freqs, psd) ->
     _check_feasibility freqs <> Ok true ->
     raises (estimate sig fs band fmt mode)).
Proof.
  split.
  - apply check_feasibility_true.
  - intros. eapply infeasible_raises; eassumption.
Qed.


(** The estimator past its entry checks: the conversion applied to the
    averaged centroid frequency. *)
Lemma estimate_stages (sig : ndarray) (fs : Qc) (band : option (list Qc))
    (fmt mode : string) (freqs : list Qc) (psd : list (list Qc))
    (b : Qc * Qc) :
  valid_layout fmt ->
  welch (channel_first fmt sig) fs = Ok (freqs, psd) ->
  _check_feasibility freqs = Ok true ->
  band_bounds (or_default band spectral_hr_fs_band) = Ok b ->
  estimate sig fs band fmt mode
  = (ret_val <- mean_peak_frequency freqs psd b ;; Ok (convert mode ret_val)).
Proof.
  intros Hfmt Hw Hf Hb. unfold spectral_heart_rate.
  unfold valid_layout in Hfmt. rewrite Hfmt. simpl.
  rewrite Hw. simpl. rewrite Hf. simpl. rewrite Hb. reflexivity.
Qed.

(** The mode only enters in the last step. *)
Lemma estimate_mode (sig : ndarray) (fs : Qc) (band : option (list Qc))
    (fmt : string) :
  exists r : result float64,
    forall mode,
      estimate sig fs band fmt mode = (f <- r ;; Ok (convert mode f)).
Proof.
  unfold spectral_heart_rate.
  destruct (assert_ _ _) as [[]|e]; simpl;
    [|exists (Raise e); reflexivity].
  destruct (welch _ _) as [[freqs psd]|e]; simpl;
    [|exists (Raise e); reflexivity].
  destruct (_check_feasibility freqs) as [[|]|e]; simpl;
    [|eexists (Raise _); reflexivity|exists (Raise e); reflexivity].
  destruct (band_bounds _) as [b|e]; simpl;
    [|exists (Raise e); reflexivity].
  exists (mean_peak_frequency freqs psd b). reflexivity.
Qed.

(** C8.  Layout invariance: the estimator called on the transposed signal
    with a lead-last tag returns what it returns on the original signal
    with a lead-first tag. *)
Theorem layout_invariance (sig : ndarray) (fs : Qc)
    (band : option (list Qc)) (mode fmt_first fmt_last : string) :
  lead_first_tag fmt_first ->
  lead_last_tag fmt_last ->
  estimate (Np.T sig) fs band fmt_last mode
  = estimate sig fs band fmt_first mode.
Proof.
  intros Hf Hl. unfold spectral_heart_rate.
  rewrite (channel_first_of_first _ _ Hf), (channel_first_of_last _ _ Hl).
  pose proof (proj1 (lead_first_valid _ Hf)) as Hvf.
  pose proof (lead_last_valid _ Hl) as Hvl.
  unfold valid_layout in Hvf, Hvl. now rewrite Hvf, Hvl.
Qed.

(** C5 (amended).  A malformed layout tag makes the estimator raise an
    assertion error at entry, whatever the other arguments and before the
    power spectral density is computed; a supplied band with exactly one
    bound always makes it raise; an empty band counts as no band, and the
    configured default is used. *)
Theorem invalid_arguments (sig : ndarray) (fs : Qc) (mode : string) :
  (forall band fmt,
     ~ valid_layout fmt ->
     estimate sig fs band fmt mode = Raise (AssertionError "")) /\
  (forall b fmt, raises (estimate sig fs (Some [b]) fmt mode)) /\
  (forall fmt,
     estimate sig fs (Some []) fmt mode = estimate sig fs None fmt mode).
Proof.
  split; [|split].
  - intros band fmt H. unfold valid_layout in H.
    apply not_true_is_false in H. unfold spectral_heart_rate.
    now rewrite H.
  - intros b fmt. unfold spectral_heart_rate, raises.
    destruct (assert_ _ _) as [[]|e]; simpl; [|eauto].
    destruct (welch _ _) as [[freqs psd]|e]; simpl; [|eauto].
    destruct (_check_feasibility freqs) as [[|]|e]; simpl; eauto.
  - reflexivity.
Qed.

Lemma estimate_same_bounds (sig : ndarray) (fs : Qc) (fmt mode : string)
    (band band' : option (list Qc)) :
  band_bounds (or_default band spectral_hr_fs_band)
  = band_bounds (or_default band' spectral_hr_fs_band) ->
  estimate sig fs band fmt mode = estimate sig fs band' fmt mode.
Proof. intros H. unfold spectral_heart_rate. now rewrite H. Qed.

(** The example of the specification, for every signal, sampling rate,
    layout and mode. *)
Example band_three_bounds (sig : ndarray) (fs : Qc) (fmt mode : string) :
  estimate sig fs (Some [qc 4 5; qc 3 2; qc 6 5]) fmt mode
  = estimate sig fs (Some [qc 4 5; qc 3 2]) fmt mode.
Proof. apply estimate_same_bounds. reflexivity. Qed.

(** C6.  Of a supplied band with at least two bounds only the minimum and
    the maximum matter: two such bands with the same minimum and the same
    maximum give the same result, value or error. *)
Theorem band_min_max_only (sig : ndarray) (fs : Qc) (fmt mode : string)
    (band band' : list Qc) :
  (2 <= List.length band)%nat ->
  (2 <= List.length band')%nat ->
  minimum band = minimum band' ->
  maximum band = maximum band' ->
  estimate sig fs (Some band) fmt mode = estimate sig fs (Some band') fmt mode.
Proof.
  intros H H' Hmin Hmax. apply estimate_same_bounds.
  destruct band as [|x t]; [simpl in H; lia|].
  destruct band' as [|x' t']; [simpl in H'; lia|].
  unfold or_default.
  rewrite (band_bounds_min_max _ H), (band_bounds_min_max _ H').
  now rewrite Hmin, Hmax.
Qed.

(** C7.  On inputs where both calls return, the result in rr_interval
    mode is 60000 divided by the result in heart_rate mode. *)
Theorem rr_interval_of_heart_rate (sig : ndarray) (fs : Qc)
    (band : option (list Qc)) (fmt mode_hr mode_rr : string)
    (hr rr : float64) :
  heart_rate_mode mode_hr ->
  rr_interval_mode mode_rr ->
  estimate sig fs band fmt mode_hr = Ok hr ->
  estimate sig fs band fmt mode_rr = Ok rr ->
  rr = fdiv (Fin (of_Z 60000)) hr.
Proof.
  intros Hhr Hrr Eh Er.
  destruct (estimate_mode sig fs band fmt) as [r Hr].
  rewrite Hr in Eh, Er. destruct r as [f|e]; simpl in Eh, Er; [|discriminate].
  injection Eh as <-. injection Er as <-.
  rewrite (convert_hr _ _ Hhr), (convert_rr _ _ Hrr). apply rr_of_hr.
Qed.

(** C3 (amended).  In rr_interval mode, when the averaged centroid
    frequency is zero the estimator raises no error: it divides 1000 by
    zero and returns infinity. *)
Theorem zero_frequency_rr_is_infinite (sig : ndarray) (fs : Qc)
    (band : option (list Qc)) (fmt mode : string) (freqs : list Qc)
    (psd : list (list Qc)) (b : Qc * Qc) :
  valid_layout fmt ->
  welch (channel_first fmt sig) fs = Ok (freqs, psd) ->
  _check_feasibility freqs = Ok true ->
  band_bounds (or_default band spectral_hr_fs_band) = Ok b ->
  mean_peak_frequency freqs psd b = Ok (Fin 0) ->
  rr_interval_mode mode ->
  estimate sig fs band fmt mode = Ok PInf.
Proof.
  intros Hfmt Hw Hf Hb Hm Hrr.
  rewrite (estimate_stages _ _ _ _ _ _ _ _ Hfmt Hw Hf Hb), Hm. simpl.
  now rewrite (convert_rr _ _ Hrr).
Qed.

(** C4 (amended).  When no frequency of the axis lies in the closed
    interval of the band, the estimator restricts the arrays to the empty
    index set and then fails with the [ValueError] that [argmax] raises on
    the empty band-of-interest; masking and centroid are not reached and
    no value is returned. *)
Theorem empty_band_fails_in_argmax (sig : ndarray) (fs : Qc)
    (band : option (list Qc)) (fmt mode : string) (freqs : list Qc)
    (psd : list (list Qc)) (b : Qc * Qc) :
  valid_layout fmt ->
  welch (channel_first fmt sig) fs = Ok (freqs, psd) ->
  _check_feasibility freqs = Ok true ->
  band_bounds (or_default band spectral_hr_fs_band) = Ok b ->
  inds_of_interest b freqs = [] ->
  estimate sig fs band fmt mode
  = Raise (ValueError "attempt to get argmax of an empty sequence").
Proof.
  intros Hfmt Hw Hf Hb Hi.
  rewrite (estimate_stages _ _ _ _ _ _ _ _ Hfmt Hw Hf Hb).
  unfold mean_peak_frequency. rewrite Hi. reflexivity.
Qed.

End Properties.

(** ** The properties on concrete inputs *)


Lemma feasibility_criterion_witness :
  fixed_psd freqs_narrow [[qc 1 1; qc 2 1; qc 1 1]]
    (channel_first "lead_first" sig_1x8) (qc 4 1)
    = Ok (freqs_narrow, [[qc 1 1; qc 2 1; qc 1 1]]) /\
  _check_feasibility freqs_narrow <> Ok true /\
  raises (spectral_heart_rate
            (fixed_psd freqs_narrow [[qc 1 1; qc 2 1; qc 1 1]]) default_band
            sig_1x8 (qc 4 1) None "lead_first" "hr").
Proof.
  assert (H : _check_feasibility freqs_narrow <> Ok true)
    by (vm_compute; discriminate).
  split; [reflexivity|]. split; [exact H|].
  exact (proj2 (feasibility_criterion _ default_band freqs_narrow)
           sig_1x8 (qc 4 1) None "lead_first" "hr" _ eq_refl H).
Defined.

Lemma layout_invariance_witness :
  lead_first_tag "Channel_First" /\
  lead_last_tag "LEAD_LAST" /\
  spectral_heart_rate (squares_psd freqs5) default_band
    (Np.T sig_2x8) (qc 4 1) None "LEAD_LAST" "hr"
  = spectral_heart_rate (squares_psd freqs5) default_band
      sig_2x8 (qc 4 1) None "Channel_First" "hr".
Proof.
  assert (H1 : lead_first_tag "Channel_First") by reflexivity.
  assert (H2 : lead_last_tag "LEAD_LAST") by reflexivity.
  split; [exact H1|]. split; [exact H2|].
  exact (layout_invariance (squares_psd freqs5) default_band
           sig_2x8 (qc 4 1) None "hr" "Channel_First" "LEAD_LAST" H1 H2).
Defined.

(** C5 (as stated, refuted).  A supplied band with no bound at all is not
    rejected: the default band is used and an estimate is returned. *)
Lemma empty_band_returns_estimate :
  spectral_heart_rate
    (fixed_psd freqs5 [[qc 1 1; qc 5 1; qc 3 1; qc 1 1; qc 1 1]])
    default_band sig_1x8 (qc 4 1) (Some []) "channel_first" "hr"
  = Ok (Fin (qc 30 1)) /\
  ~ raises (spectral_heart_rate
              (fixed_psd freqs5 [[qc 1 1; qc 5 1; qc 3 1; qc 1 1; qc 1 1]])
              default_band sig_1x8 (qc 4 1) (Some []) "channel_first" "hr").
Proof.
  split; [eval_fin|]. intros [e H]. vm_compute in H. discriminate H.
Qed.

Lemma invalid_arguments_witness :
  ~ valid_layout "row_major" /\
  spectral_heart_rate
    (fixed_psd freqs5 [[qc 1 1; qc 5 1; qc 3 1; qc 1 1; qc 1 1]])
    default_band sig_1x8 (qc 4 1) None "row_major" "hr"
  = Raise (AssertionError "").
Proof.
  assert (H : ~ valid_layout "row_major") by (vm_compute; discriminate).
  split; [exact H|].
  exact (proj1 (invalid_arguments
                  (fixed_psd freqs5 [[qc 1 1; qc 5 1; qc 3 1; qc 1 1; qc 1 1]])
                  default_band sig_1x8 (qc 4 1) "hr")
           None "row_major" H).
Defined.

Lemma band_min_max_only_witness :
  (2 <= List.length [qc 4 5; qc 3 2; qc 6 5])%nat /\
  (2 <= List.length [qc 4 5; qc 3 2])%nat /\
  minimum [qc 4 5; qc 3 2; qc 6 5] = minimum [qc 4 5; qc 3 2] /\
  maximum [qc 4 5; qc 3 2; qc 6 5] = maximum [qc 4 5; qc 3 2] /\
  spectral_heart_rate
    (fixed_psd freqs5 [[qc 1 1; qc 2 1; qc 5 1; qc 4 1; qc 1 1]])
    default_band sig_1x8 (qc 4 1) (Some [qc 4 5; qc 3 2; qc 6 5])
    "channel_first" "hr"
  = spectral_heart_rate
      (fixed_psd freqs5 [[qc 1 1; qc 2 1; qc 5 1; qc 4 1; qc 1 1]])
      default_band sig_1x8 (qc 4 1) (Some [qc 4 5; qc 3 2])
      "channel_first" "hr".
Proof.
  assert (H1 : (2 <= List.length [qc 4 5; qc 3 2; qc 6 5])%nat) by (simpl; lia).
  assert (H2 : (2 <= List.length [qc 4 5; qc 3 2])%nat) by (simpl; lia).
  assert (H3 : minimum [qc 4 5; qc 3 2; qc 6 5] = minimum [qc 4 5; qc 3 2])
    by reflexivity.
  assert (H4 : maximum [qc 4 5; qc 3 2; qc 6 5] = maximum [qc 4 5; qc 3 2])
    by reflexivity.
  repeat (split; [assumption|]).
  exact (band_min_max_only _ default_band sig_1x8 (qc 4 1)
           "channel_first" "hr" _ _ H1 H2 H3 H4).
Defined.

Lemma rr_interval_of_heart_rate_witness :
  heart_rate_mode "heart_rate" /\
  rr_interval_mode "RR_interval" /\
  spectral_heart_rate
    (fixed_psd freqs5 [[qc 1 1; qc 2 1; qc 5 1; qc 4 1; qc 1 1]])
    default_band sig_1x8 (qc 4 1) None "channel_first" "heart_rate"
  = Ok (Fin (qc 360 7)) /\
  spectral_heart_rate
    (fixed_psd freqs5 [[qc 1 1; qc 2 1; qc 5 1; qc 4 1; qc 1 1]])
    default_band sig_1x8 (qc 4 1) None "channel_first" "RR_interval"
  = Ok (Fin (qc 3500 3)) /\
  Fin (qc 3500 3) = fdiv (Fin (of_Z 60000)) (Fin (qc 360 7)).
Proof.
  assert (H1 : heart_rate_mode "heart_rate") by reflexivity.
  assert (H2 : rr_interval_mode "RR_interval") by reflexivity.
  assert (H3 : spectral_heart_rate
                 (fixed_psd freqs5 [[qc 1 1; qc 2 1; qc 5 1; qc 4 1; qc 1 1]])
                 default_band sig_1x8 (qc 4 1) None "channel_first"
                 "heart_rate" = Ok (Fin (qc 360 7))) by eval_fin.
  assert (H4 : spectral_heart_rate
                 (fixed_psd freqs5 [[qc 1 1; qc 2 1; qc 5 1; qc 4 1; qc 1 1]])
                 default_band sig_1x8 (qc 4 1) None "channel_first"
                 "RR_interval" = Ok (Fin (qc 3500 3))) by eval_fin.
  repeat (split; [assumption|]).
  exact (rr_interval_of_heart_rate _ _ _ _ _ _ _ _ _ _ H1 H2 H3 H4).
Defined.

(** C3 (as stated, refuted).  With the band [0, 2] Hz and a lead whose
    power peaks in the 0 Hz bin, the averaged centroid frequency is zero;
    in rr_interval mode the estimator returns infinity, and raises
    nothing. *)
Lemma zero_frequency_returns_infinity :
  mean_peak_frequency freqs5 [[qc 9 1; qc 5 1; qc 3 1; qc 1 1; qc 1 1]]
    (qc 0 1, qc 2 1) = Ok (Fin 0%Qc) /\
  spectral_heart_rate
    (fixed_psd freqs5 [[qc 9 1; qc 5 1; qc 3 1; qc 1 1; qc 1 1]])
    default_band sig_1x8 (qc 4 1) (Some [qc 0 1; qc 2 1])
    "channel_first" "rr_interval"
  = Ok PInf /\
  ~ raises (spectral_heart_rate
              (fixed_psd freqs5 [[qc 9 1; qc 5 1; qc 3 1; qc 1 1; qc 1 1]])
              default_band sig_1x8 (qc 4 1) (Some [qc 0 1; qc 2 1])
              "channel_first" "rr_interval").
Proof.
  split; [eval_fin|]. split; [reflexivity|].
  intros [e H]. vm_compute in H. discriminate H.
Qed.

Lemma zero_frequency_rr_is_infinite_witness :
  valid_layout "channel_first" /\
  rr_interval_mode "rr_interval" /\
  spectral_heart_rate
    (fixed_psd freqs5 [[qc 9 1; qc 5 1; qc 3 1; qc 1 1; qc 1 1]])
    default_band sig_1x8 (qc 4 1) (Some [qc 0 1; qc 2 1])
    "channel_first" "rr_interval"
  = Ok PInf.
Proof.
  split; [reflexivity|]. split; [reflexivity|].
  apply (zero_frequency_rr_is_infinite
           (fixed_psd freqs5 [[qc 9 1; qc 5 1; qc 3 1; qc 1 1; qc 1 1]])
           default_band sig_1x8 (qc 4 1) (Some [qc 0 1; qc 2 1])
           "channel_first" "rr_interval" freqs5
           [[qc 9 1; qc 5 1; qc 3 1; qc 1 1; qc 1 1]] (qc 0 1, qc 2 1)).
  - reflexivity.
  - reflexivity.
  - reflexivity.
  - reflexivity.
  - eval_fin.
  - reflexivity.
Defined.

(** C4 (as stated, refuted).  On an axis that ends at 2 Hz with the band
    [5, 6] Hz nothing stops the estimator before [argmax]: the restriction
    yields the empty index set and an empty power row, [argmax] is called
    on it, and the error of the estimator is the one [argmax] raises. *)
Lemma empty_band_reaches_argmax :
  band_bounds [qc 5 1; qc 6 1] = Ok (qc 5 1, qc 6 1) /\
  inds_of_interest (qc 5 1, qc 6 1) freqs5 = [] /\
  Np.argmax 0 [Np.take [qc 1 1; qc 5 1; qc 3 1; qc 1 1; qc 1 1] []]
  = Raise (ValueError "attempt to get argmax of an empty sequence") /\
  spectral_heart_rate
    (fixed_psd freqs5 [[qc 1 1; qc 5 1; qc 3 1; qc 1 1; qc 1 1]])
    default_band sig_1x8 (qc 4 1) (Some [qc 5 1; qc 6 1])
    "channel_first" "hr"
  = Raise (ValueError "attempt to get argmax of an empty sequence").
Proof. repeat split; reflexivity. Qed.

Lemma empty_band_fails_in_argmax_witness :
  valid_layout "channel_first" /\
  inds_of_interest (qc 5 1, qc 6 1) freqs5 = [] /\
  spectral_heart_rate
    (fixed_psd freqs5 [[qc 1 1; qc 5 1; qc 3 1; qc 1 1; qc 1 1]])
    default_band sig_1x8 (qc 4 1) (Some [qc 5 1; qc 6 1])
    "channel_first" "hr"
  = Raise (ValueError "attempt to get argmax of an empty sequence").
Proof.
  split; [reflexivity|]. split; [reflexivity|].
  apply (empty_band_fails_in_argmax
           (fixed_psd freqs5 [[qc 1 1; qc 5 1; qc 3 1; qc 1 1; qc 1 1]])
           default_band sig_1x8 (qc 4 1) (Some [qc 5 1; qc 6 1])
           "channel_first" "hr" freqs5
           [[qc 1 1; qc 5 1; qc 3 1; qc 1 1; qc 1 1]] (qc 5 1, qc 6 1));
    reflexivity.
Defined.

(** * Further properties of the estimator *)

(** An axis passes the feasibility check exactly when it holds a positive
    frequency of at most 50/60 Hz and a frequency of at least 100/60 Hz. *)
Theorem feasible_iff_covers_range (freqs : list Qc) :
  _check_feasibility freqs = Ok true <->
  (exists f, In f freqs /\ (0 < f)%Qc /\ (f <= of_Z 50 / of_Z 60)%Qc) /\
  (exists f, In f freqs /\ (of_Z 100 / of_Z 60 <= f)%Qc).
Proof.
  rewrite check_feasibility_true. split.
  - intros (lo & hi & [Hlo _] & [Hhi _] & H1 & H2).
    apply positive_freqs_in in Hlo, Hhi. split.
    + exists lo. tauto.
    + exists hi. tauto.
  - intros [(f & Hf & Hpos & Hle) (g & Hg & Hge)].
    assert (Hf' : In f (positive_freqs freqs)) by now apply positive_freqs_in.
    assert (Hgpos : (0 < g)%Qc).
    { eapply Qclt_le_trans; [|exact Hge]. reflexivity. }
    assert (Hg' : In g (positive_freqs freqs)) by now apply positive_freqs_in.
    assert (Hne : positive_freqs freqs <> []).
    { intros E. rewrite E in Hf'. destruct Hf'. }
    destruct (first_sort_ok _ Hne) as [lo Hlo].
    destruct (final_sort_ok _ Hne) as [hi Hhi].
    apply sort_first_smallest in Hlo. apply sort_final_largest in Hhi.
    exists lo, hi. split; [exact Hlo|]. split; [exact Hhi|]. split.
    + eapply Qcle_trans; [apply Hlo; exact Hf' | exact Hle].
    + eapply Qcle_trans; [exact Hge | apply Hhi; exact Hg'].
Qed.

Lemma smallest_of_perm (l l' : list Qc) (x : Qc) :
  Permutation l l' -> smallest_of l x -> smallest_of l' x.
Proof.
  intros P [Hin Hle]. split.
  - eapply Permutation_in; eassumption.
  - intros y Hy. apply Hle. eapply Permutation_in; [symmetry|]; eassumption.
Qed.

Lemma largest_of_perm (l l' : list Qc) (x : Qc) :
  Permutation l l' -> largest_of l x -> largest_of l' x.
Proof.
  intros P [Hin Hle]. split.
  - eapply Permutation_in; eassumption.
  - intros y Hy. apply Hle. eapply Permutation_in; [symmetry|]; eassumption.
Qed.

Lemma band_bounds_perm (band band' : list Qc) :
  Permutation band band' -> band_bounds band = band_bounds band'.
Proof.
  intros P. pose proof (Permutation_length P) as Hlen.
  destruct (Nat.le_gt_cases 2 (List.length band)) as [H|H].
  - rewrite !band_bounds_min_max by lia.
    destruct band as [|x t]; [simpl in H; lia|].
    destruct band' as [|x' t']; [simpl in Hlen; lia|].
    unfold minimum, maximum. apply f_equal, f_equal2.
    + eapply smallest_unique; [|apply fold_qmin_smallest].
      eapply smallest_of_perm; [exact P | apply fold_qmin_smallest].
    + eapply largest_unique; [|apply fold_qmax_largest].
      eapply largest_of_perm; [exact P | apply fold_qmax_largest].
  - rewrite !band_bounds_short by lia. reflexivity.
Qed.


(** ** Arithmetic of the centroid *)

Lemma div_between (lo hi d s : Qc) :
  (0 < s)%Qc -> (lo * s <= d)%Qc -> (d <= hi * s)%Qc ->
  (lo <= d / s)%Qc /\ (d / s <= hi)%Qc.
Proof.
  intros Hs Hlo Hhi.
  assert (Hne : s <> 0%Qc).
  { intros E. subst s. exact (Qclt_not_eq _ _ Hs eq_refl). }
  assert (E : (d / s * s)%Qc = d) by (field; exact Hne).
  split; apply (Qcmult_lt_0_le_reg_r _ _ s Hs); now rewrite E.
Qed.

Lemma of_nat_succ (n : nat) : of_nat (S n) = (of_nat n + 1)%Qc.
Proof.
  unfold of_nat, of_Z. apply Qc_is_canon. qc2q.
  rewrite Nat2Z.inj_succ. unfold Z.succ. rewrite inject_Z_plus. reflexivity.
Qed.

Lemma of_nat_pos (n : nat) : (0 < n)%nat -> (0 < of_nat n)%Qc.
Proof.
  intros H. unfold of_nat, of_Z. qc2q.
  change 0%Q with (inject_Z 0). rewrite <- Zlt_Qlt. lia.
Qed.

(** A weighted sum of values between [lo] and [hi], with weights that are
    not negative, lies between [lo] and [hi] times the sum of the weights. *)
Lemma dot_between (lo hi : Qc) (w f : list Qc) :
  List.length w = List.length f ->
  Forall (fun x => (0 <= x)%Qc) w ->
  Forall (fun y => (lo <= y)%Qc /\ (y <= hi)%Qc) f ->
  (lo * Np.sum w <= Np.dot w f)%Qc /\ (Np.dot w f <= hi * Np.sum w)%Qc.
Proof.
  revert f. induction w as [|x w IH]; intros [|y f] Hlen Hw Hf;
    simpl in Hlen; try discriminate.
  - simpl. split; qc2q; lra.
  - inversion Hw as [|? ? Hx Hw']; subst.
    inversion Hf as [|? ? [Hy1 Hy2] Hf']; subst.
    destruct (IH f) as [H1 H2]; auto.
    simpl. fold (Np.sum w). split; qc2q; nra.
Qed.

Lemma sum_nonneg (w : list Qc) :
  Forall (fun x => (0 <= x)%Qc) w -> (0 <= Np.sum w)%Qc.
Proof.
  induction 1 as [|x w Hx Hw IH]; simpl; [apply Qcle_refl|].
  fold (Np.sum w). qc2q. lra.
Qed.

Lemma nth_le_sum (w : list Qc) (j : nat) :
  Forall (fun x => (0 <= x)%Qc) w ->
  (nth j w 0 <= Np.sum w)%Qc.
Proof.
  intros Hw. revert j. induction Hw as [|x w Hx Hw IH]; intros j.
  - destruct j; apply Qcle_refl.
  - pose proof (sum_nonneg w Hw) as Hs. destruct j as [|j]; simpl.
    + fold (Np.sum w). qc2q. lra.
    + specialize (IH j). fold (Np.sum w).
      generalize dependent (nth j w 0%Qc). intros v IH.
      generalize dependent (Np.sum w). intros sw Hs IH. qc2q. lra.
Qed.

Lemma mul_mask_length (a : list Qc) (mask : list Z) :
  List.length a = List.length mask ->
  List.length (Np.mul_mask a mask) = List.length a.
Proof.
  revert mask. induction a as [|x a IH]; intros [|z mask] H; simpl in *;
    try discriminate; auto.
Qed.

(** The masked row of a lead whose power is nowhere negative: nowhere
    negative either, and equal to the row at the peak. *)
Lemma masked_row_nonneg (row : list Qc) (p : nat) :
  Forall (fun x => (0 <= x)%Qc) row ->
  Forall (fun x => (0 <= x)%Qc)
         (Np.mul_mask row (mask_row (List.length row) p)).
Proof.
  intros H. apply Forall_nth. intros j d Hj.
  rewrite mul_mask_length in Hj by now rewrite mask_row_length.
  rewrite (nth_indep _ d 0%Qc)
    by (rewrite mul_mask_length; [exact Hj | now rewrite mask_row_length]).
  rewrite masked_row_nth by exact Hj.
  destruct ((j =? p) || (S j =? p))%nat; [|apply Qcle_refl].
  rewrite Forall_nth in H. now apply H.
Qed.

Lemma masked_row_at_peak (row : list Qc) (p : nat) :
  (p < List.length row)%nat ->
  nth p (Np.mul_mask row (mask_row (List.length row) p)) 0%Qc = nth p row 0%Qc.
Proof.
  intros H. rewrite masked_row_nth by exact H. now rewrite Nat.eqb_refl.
Qed.

(** The centroid of one lead lies between the smallest and the largest
    frequency of the band-of-interest, when the power of the lead is
    nowhere negative and somewhere positive. *)
Lemma centroid_between (lo hi : Qc) (row fr : list Qc) :
  List.length row = List.length fr ->
  Forall (fun x => (0 <= x)%Qc) row ->
  Exists (fun x => (0 < x)%Qc) row ->
  Forall (fun y => (lo <= y)%Qc /\ (y <= hi)%Qc) fr ->
  let w := Np.mul_mask row (mask_row (List.length row) (Np.argmax_row row)) in
  exists c, fdiv (Fin (Np.dot w fr)) (Fin (Np.sum w)) = Fin c /\
            (lo <= c)%Qc /\ (c <= hi)%Qc.
Proof.
  intros Hlen Hrow Hpos Hfr w.
  assert (Hne : row <> []).
  { intros E. subst row. inversion Hpos. }
  destruct (argmax_row_first_maximum row Hne) as (Hp & Hmax & _).
  set (p := Np.argmax_row row) in *.
  assert (Hw : Forall (fun x => (0 <= x)%Qc) w) by now apply masked_row_nonneg.
  assert (Hpeak : (0 < nth p row 0)%Qc).
  { apply Exists_exists in Hpos. destruct Hpos as (x & Hx & Hx0).
    destruct (In_nth _ _ 0%Qc Hx) as (j & Hj & <-).
    eapply Qclt_le_trans; [exact Hx0 | now apply Hmax]. }
  assert (Hs : (0 < Np.sum w)%Qc).
  { eapply Qclt_le_trans; [exact Hpeak|].
    rewrite <- (masked_row_at_peak row p Hp). now apply nth_le_sum. }
  assert (Hwl : List.length w = List.length fr).
  { unfold w. rewrite mul_mask_length by now rewrite mask_row_length.
    exact Hlen. }
  destruct (dot_between lo hi w fr Hwl Hw Hfr) as [H1 H2].
  exists (Np.dot w fr / Np.sum w)%Qc. split.
  - simpl. rewrite Qc_eq_bool_false; [reflexivity|].
    intros E. rewrite E in Hs. exact (Qclt_not_eq _ _ Hs eq_refl).
  - now apply div_between.
Qed.

(** The mean of finite values between [lo] and [hi]. *)
Lemma fold_fadd_between (lo hi : Qc) (cs : list float64) (a : Qc) :
  Forall (fun x => exists c, x = Fin c /\ (lo <= c)%Qc /\ (c <= hi)%Qc) cs ->
  exists t, fold_left fadd cs (Fin a) = Fin (a + t) /\
            (lo * of_nat (List.length cs) <= t)%Qc /\
            (t <= hi * of_nat (List.length cs))%Qc.
Proof.
  intros H. revert a. induction H as [|x cs (c & -> & Hc1 & Hc2) _ IH];
    intros a.
  - exists 0%Qc. cbn [fold_left List.length].
    change (of_nat 0) with 0%Qc. split; [now rewrite Qcplus_0_r|].
    split; qc2q; lra.
  - destruct (IH (a + c)%Qc) as (t & Ht & Ht1 & Ht2).
    exists (c + t)%Qc. cbn [fold_left fadd]. rewrite Ht. split.
    + f_equal. ring.
    + cbn [List.length]. rewrite of_nat_succ. split; qc2q; lra.
Qed.

Lemma mean_between (lo hi : Qc) (cs : list float64) :
  cs <> [] ->
  Forall (fun x => exists c, x = Fin c /\ (lo <= c)%Qc /\ (c <= hi)%Qc) cs ->
  exists m, Np.mean cs = Fin m /\ (lo <= m)%Qc /\ (m <= hi)%Qc.
Proof.
  intros Hne H. unfold Np.mean.
  destruct (fold_fadd_between lo hi cs 0%Qc H) as (t & Ht & Ht1 & Ht2).
  rewrite Ht, Qcplus_0_l.
  assert (Hn : (0 < of_nat (List.length cs))%Qc).
  { apply of_nat_pos. destruct cs; [congruence | simpl; lia]. }
  exists (t / of_nat (List.length cs))%Qc. split.
  - simpl. rewrite Qc_eq_bool_false; [reflexivity|].
    intros E. rewrite E in Hn. exact (Qclt_not_eq _ _ Hn eq_refl).
  - now apply div_between.
Qed.

(** ** The averaged centroid frequency *)

Lemma apply_mask_peaks (m : nat) (rows : list (list Qc)) :
  apply_mask rows (psd_mask m (map Np.argmax_row rows))
  = map (fun r => Np.mul_mask r (mask_row m (Np.argmax_row r))) rows.
Proof.
  induction rows as [|r rows IH]; simpl; [reflexivity|].
  f_equal. exact IH.
Qed.

(** On a band that meets the axis, the averaged centroid frequency is the
    mean of the centroids of the leads. *)
Lemma mean_peak_frequency_eq (freqs : list Qc) (psd : list (list Qc))
    (band : Qc * Qc) :
  inds_of_interest band freqs <> [] ->
  mean_peak_frequency freqs psd band
  = Ok (Np.mean (map (lead_centroid freqs (inds_of_interest band freqs)) psd)).
Proof.
  intros Hne. unfold mean_peak_frequency, Np.argmax.
  destruct (Nat.eqb_spec (List.length (inds_of_interest band freqs)) 0)
    as [H0|_].
  - apply length_zero_iff_nil in H0. contradiction.
  - simpl. rewrite apply_mask_peaks. unfold centroids.
    rewrite !map_map. reflexivity.
Qed.

Lemma freqs_of_interest_in_band (band : Qc * Qc) (freqs : list Qc) :
  Forall (fun y => (fst band <= y)%Qc /\ (y <= snd band)%Qc)
         (Np.take freqs (inds_of_interest band freqs)).
Proof.
  unfold Np.take. apply Forall_map. apply Forall_forall. intros i Hi.
  unfold inds_of_interest, Np.where_ in Hi. apply filter_In in Hi.
  destruct Hi as [_ Hi]. apply andb_true_iff in Hi.
  destruct Hi as [H1 H2]. apply leb_le in H1, H2. auto.
Qed.

(** When the power of every lead is nowhere negative in the band and
    somewhere positive, the averaged centroid frequency is finite and lies
    within the band. *)
Lemma mean_peak_frequency_in_band (freqs : list Qc) (psd : list (list Qc))
    (band : Qc * Qc) :
  psd <> [] ->
  (forall row, In row psd ->
     (forall i, In i (inds_of_interest band freqs) -> (0 <= nth i row 0)%Qc) /\
     (exists i, In i (inds_of_interest band freqs) /\ (0 < nth i row 0)%Qc)) ->
  exists f, mean_peak_frequency freqs psd band = Ok (Fin f) /\
            (fst band <= f)%Qc /\ (f <= snd band)%Qc.
Proof.
  intros Hpsd Hrows. set (inds := inds_of_interest band freqs) in *.
  assert (Hne : inds <> []).
  { destruct psd as [|row psd']; [congruence|].
    destruct (Hrows row (or_introl eq_refl)) as [_ (i & Hi & _)].
    intros E. rewrite E in Hi. destruct Hi. }
  rewrite (mean_peak_frequency_eq _ _ _ Hne). fold inds.
  destruct (mean_between (fst band) (snd band)
              (map (lead_centroid freqs inds) psd)) as (m & Hm & Hb).
  - destruct psd; [congruence | discriminate].
  - apply Forall_map. apply Forall_forall. intros row Hrow.
    destruct (Hrows row Hrow) as [Hnn (i & Hi & Hpos)].
    unfold lead_centroid. cbv beta zeta.
    replace (List.length inds) with (List.length (Np.take row inds))
      by apply take_length.
    apply centroid_between.
    + unfold Np.take. now rewrite !length_map.
    + unfold Np.take. apply Forall_map. apply Forall_forall. exact Hnn.
    + apply Exists_exists. exists (nth i row 0%Qc). split; [|exact Hpos].
      unfold Np.take. apply in_map_iff. eauto.
    + apply freqs_of_interest_in_band.
  - exists m. now rewrite Hm.
Qed.

Lemma fold_fadd_nan (cs : list float64) : fold_left fadd cs NaN = NaN.
Proof. induction cs as [|x cs IH]; simpl; [reflexivity|exact IH]. Qed.

Lemma fadd_nan_r (x : float64) : fadd x NaN = NaN.
Proof. destruct x; reflexivity. Qed.

Lemma fold_fadd_in_nan (cs : list float64) (a : float64) :
  In NaN cs -> fold_left fadd cs a = NaN.
Proof.
  revert a. induction cs as [|x cs IH]; intros a H; [destruct H|].
  destruct H as [->|H]; simpl.
  - rewrite fadd_nan_r. apply fold_fadd_nan.
  - now apply IH.
Qed.

Lemma mean_in_nan (cs : list float64) : In NaN cs -> Np.mean cs = NaN.
Proof.
  intros H. unfold Np.mean. now rewrite (fold_fadd_in_nan _ _ H).
Qed.

Lemma mul_mask_zero (a : list Qc) (mask : list Z) :
  Forall (fun x => x = 0%Qc) a ->
  Forall (fun x => x = 0%Qc) (Np.mul_mask a mask).
Proof.
  intros H. revert mask. induction H as [|x a -> _ IH]; intros [|z mask];
    simpl; constructor; [apply Qcmult_0_l | apply IH].
Qed.

Lemma dot_zero (w f : list Qc) :
  Forall (fun x => x = 0%Qc) w -> Np.dot w f = 0%Qc.
Proof.
  intros H. revert f. induction H as [|x w -> _ IH]; intros [|y f];
    simpl; try reflexivity.
  rewrite IH. ring.
Qed.

Lemma sum_zero (w : list Qc) :
  Forall (fun x => x = 0%Qc) w -> Np.sum w = 0%Qc.
Proof.
  induction 1 as [|x w -> _ IH]; simpl; [reflexivity|].
  fold (Np.sum w). rewrite IH. ring.
Qed.

Lemma convert_nan (mode : string) : convert mode NaN = NaN.
Proof.
  unfold convert. destruct (str_in _ _); [reflexivity|].
  destruct (str_in _ _); reflexivity.
Qed.

(** One lead without power in the band makes the averaged frequency
    [nan]. *)
Lemma flat_lead_mean_nan (freqs : list Qc) (psd : list (list Qc))
    (band : Qc * Qc) (row : list Qc) :
  inds_of_interest band freqs <> [] ->
  In row psd ->
  (forall i, In i (inds_of_interest band freqs) -> nth i row 0%Qc = 0%Qc) ->
  mean_peak_frequency freqs psd band = Ok NaN.
Proof.
  intros Hne Hrow Hz. rewrite (mean_peak_frequency_eq _ _ _ Hne).
  f_equal. apply mean_in_nan. apply in_map_iff. exists row.
  split; [|exact Hrow]. unfold lead_centroid.
  assert (H0 : Forall (fun x => x = 0%Qc)
                      (Np.take row (inds_of_interest band freqs))).
  { unfold Np.take. apply Forall_map. apply Forall_forall. exact Hz. }
  rewrite (dot_zero _ _ (mul_mask_zero _ _ H0)).
  rewrite (sum_zero _ (mul_mask_zero _ _ H0)). reflexivity.
Qed.

(** ** Scaling the power *)

Lemma ltb_scale (c x y : Qc) :
  (0 < c)%Qc -> ltb (c * x) (c * y) = ltb x y.
Proof.
  intros Hc. destruct (ltb x y) eqn:E.
  - apply ltb_lt in E. apply ltb_lt. qc2q. nra.
  - apply ltb_false_le in E. apply ltb_false_le. qc2q. nra.
Qed.

Lemma argmax_scan_scale (c : Qc) (l : list Qc) (i best : nat) (v : Qc) :
  (0 < c)%Qc ->
  Np.argmax_scan (map (Qcmult c) l) i best (c * v)
  = Np.argmax_scan l i best v.
Proof.
  intros Hc. revert i best v.
  induction l as [|x t IH]; intros i best v; simpl; [reflexivity|].
  rewrite (ltb_scale c v x Hc). destruct (ltb v x); apply IH.
Qed.

Lemma argmax_row_scale (c : Qc) (row : list Qc) :
  (0 < c)%Qc -> Np.argmax_row (map (Qcmult c) row) = Np.argmax_row row.
Proof.
  intros Hc. destruct row as [|x t]; [reflexivity|].
  simpl. now apply argmax_scan_scale.
Qed.

Lemma take_scale (c : Qc) (row : list Qc) (inds : list nat) :
  Np.take (map (Qcmult c) row) inds = map (Qcmult c) (Np.take row inds).
Proof.
  unfold Np.take. rewrite map_map. apply map_ext. intros i.
  rewrite <- (Qcmult_0_r c) at 1. apply map_nth.
Qed.

Lemma mul_mask_scale (c : Qc) (a : list Qc) (mask : list Z) :
  Np.mul_mask (map (Qcmult c) a) mask = map (Qcmult c) (Np.mul_mask a mask).
Proof.
  revert mask. induction a as [|x a IH]; intros [|z mask]; simpl;
    try reflexivity.
  rewrite IH. f_equal. ring.
Qed.

Lemma dot_scale (c : Qc) (w f : list Qc) :
  Np.dot (map (Qcmult c) w) f = (c * Np.dot w f)%Qc.
Proof.
  revert f. induction w as [|x w IH]; intros [|y f]; simpl; try ring.
  rewrite IH. ring.
Qed.

Lemma sum_scale (c : Qc) (w : list Qc) :
  Np.sum (map (Qcmult c) w) = (c * Np.sum w)%Qc.
Proof.
  induction w as [|x w IH]; simpl; [ring|].
  fold (Np.sum w) (Np.sum (map (Qcmult c) w)). rewrite IH. ring.
Qed.

Lemma signed_inf_scale (c a : Qc) :
  (0 < c)%Qc -> signed_inf (c * a) = signed_inf a.
Proof.
  intros Hc. unfold signed_inf.
  destruct (Qc_dec a 0) as [[H|H]|H].
  - assert (H' : (c * a < 0)%Qc) by (qc2q; nra).
    now rewrite (proj1 (Qclt_alt a 0) H), (proj1 (Qclt_alt (c * a) 0) H').
  - assert (H' : (0 < c * a)%Qc) by (qc2q; nra).
    now rewrite (proj1 (Qcgt_alt a 0) H), (proj1 (Qcgt_alt (c * a) 0) H').
  - subst a. now rewrite Qcmult_0_r.
Qed.

Lemma fdiv_scale (c a b : Qc) :
  (0 < c)%Qc -> fdiv (Fin (c * a)) (Fin (c * b)) = fdiv (Fin a) (Fin b).
Proof.
  intros Hc.
  assert (Hc0 : c <> 0%Qc).
  { intros E. subst c. exact (Qclt_not_eq _ _ Hc eq_refl). }
  simpl. destruct (Qc_eq_dec b 0) as [->|Hb].
  - rewrite Qcmult_0_r, Qc_eq_bool_refl. now apply signed_inf_scale.
  - rewrite !Qc_eq_bool_false; auto.
    + f_equal. field. auto.
    + intros E. apply Qcmult_integral in E. tauto.
Qed.

Lemma lead_centroid_scale (c : Qc) (freqs : list Qc) (inds : list nat)
    (row : list Qc) :
  (0 < c)%Qc ->
  lead_centroid freqs inds (map (Qcmult c) row) = lead_centroid freqs inds row.
Proof.
  intros Hc. unfold lead_centroid. cbv zeta.
  rewrite take_scale, (argmax_row_scale _ _ Hc), mul_mask_scale.
  rewrite dot_scale, sum_scale. now apply fdiv_scale.
Qed.

(** The averaged centroid frequency depends on the shape of the power
    spectrum only: multiplying the power of every lead and bin by one
    positive factor leaves it as it is. *)
Theorem power_scale_invariance (c : Qc) (freqs : list Qc)
    (psd : list (list Qc)) (band : Qc * Qc) :
  (0 < c)%Qc ->
  mean_peak_frequency freqs (map (map (Qcmult c)) psd) band
  = mean_peak_frequency freqs psd band.
Proof.
  intros Hc.
  destruct (inds_of_interest band freqs) as [|i0 inds0] eqn:E.
  - unfold mean_peak_frequency. rewrite E. reflexivity.
  - assert (Hne : inds_of_interest band freqs <> []) by (rewrite E; discriminate).
    rewrite !(mean_peak_frequency_eq _ _ _ Hne). do 2 f_equal.
    rewrite map_map. apply map_ext. intros row.
    now apply lead_centroid_scale.
Qed.
Section MoreProperties.

Variable welch : ndarray -> Qc -> result (list Qc * list (list Qc)).
Variable spectral_hr_fs_band : list Qc.

Local Abbreviation estimate := (spectral_heart_rate welch spectral_hr_fs_band).

(** The bounds of the band may be given in any order: a rearranged band
    gives the same result, value or error. *)
Theorem band_order_irrelevant (sig : ndarray) (fs : Qc) (fmt mode : string)
    (band band' : list Qc) :
  Permutation band band' ->
  estimate sig fs (Some band) fmt mode = estimate sig fs (Some band') fmt mode.
Proof.
  intros P. apply estimate_same_bounds.
  destruct band as [|x t].
  - apply Permutation_nil in P. now subst.
  - destruct band' as [|x' t'].
    + symmetry in P. apply Permutation_nil in P. discriminate.
    + unfold or_default. now apply band_bounds_perm.
Qed.

(** A mode that is none of the four recognised names is not rejected; the
    call returns the averaged frequency in Hz.  The heart-rate call on the
    same input is that call followed by the multiplication by 60, and
    fails exactly when it does. *)
Theorem unrecognised_mode_skips_conversion (sig : ndarray) (fs : Qc)
    (band : option (list Qc)) (fmt mode mode_hr : string) :
  ~ heart_rate_mode mode ->
  ~ rr_interval_mode mode ->
  heart_rate_mode mode_hr ->
  estimate sig fs band fmt mode_hr
  = (f <- estimate sig fs band fmt mode ;; Ok (fmul (Fin (of_Z 60)) f)).
Proof.
  intros Hn1 Hn2 Hhr.
  destruct (estimate_mode welch spectral_hr_fs_band sig fs band fmt) as [r Hr].
  rewrite !Hr. destruct r as [f|e]; simpl; [|reflexivity].
  rewrite (convert_hr _ _ Hhr). unfold convert.
  unfold heart_rate_mode in Hn1. unfold rr_interval_mode in Hn2.
  apply not_true_is_false in Hn1, Hn2. now rewrite Hn1, Hn2.
Qed.

(** With a power that is nowhere negative in the band and, for every
    lead, somewhere positive, the heart rate returned is finite and lies
    between 60 times the lower and 60 times the upper bound of the band. *)
Theorem heart_rate_within_band (sig : ndarray) (fs : Qc)
    (band : option (list Qc)) (fmt mode : string) (freqs : list Qc)
    (psd : list (list Qc)) (b : Qc * Qc) :
  valid_layout fmt ->
  welch (channel_first fmt sig) fs = Ok (freqs, psd) ->
  _check_feasibility freqs = Ok true ->
  band_bounds (or_default band spectral_hr_fs_band) = Ok b ->
  psd <> [] ->
  (forall row, In row psd ->
     (forall i, In i (inds_of_interest b freqs) -> (0 <= nth i row 0)%Qc) /\
     (exists i, In i (inds_of_interest b freqs) /\ (0 < nth i row 0)%Qc)) ->
  heart_rate_mode mode ->
  exists hr,
    estimate sig fs band fmt mode = Ok (Fin hr) /\
    (of_Z 60 * fst b <= hr)%Qc /\ (hr <= of_Z 60 * snd b)%Qc.
Proof.
  intros Hfmt Hw Hf Hb Hpsd Hrows Hmode.
  rewrite (estimate_stages welch spectral_hr_fs_band
             _ _ _ _ _ _ _ _ Hfmt Hw Hf Hb).
  destruct (mean_peak_frequency_in_band freqs psd b Hpsd Hrows)
    as (f & -> & H1 & H2).
  simpl. rewrite (convert_hr _ _ Hmode). simpl.
  exists (of_Z 60 * f)%Qc. split; [reflexivity|].
  assert (H60 : (0 < of_Z 60)%Qc) by reflexivity.
  generalize dependent (of_Z 60). intros k Hk.
  generalize dependent (fst b). intros lo Hlo.
  generalize dependent (snd b). intros hi Hhi.
  split; qc2q; nra.
Qed.

(** A lead whose power is zero at every bin of the band turns the result
    into [nan], in every mode and whatever the other leads hold; no error
    is raised. *)
Theorem flat_lead_gives_nan (sig : ndarray) (fs : Qc)
    (band : option (list Qc)) (fmt mode : string) (freqs : list Qc)
    (psd : list (list Qc)) (b : Qc * Qc) (row : list Qc) :
  valid_layout fmt ->
  welch (channel_first fmt sig) fs = Ok (freqs, psd) ->
  _check_feasibility freqs = Ok true ->
  band_bounds (or_default band spectral_hr_fs_band) = Ok b ->
  inds_of_interest b freqs <> [] ->
  In row psd ->
  (forall i, In i (inds_of_interest b freqs) -> nth i row 0%Qc = 0%Qc) ->
  estimate sig fs band fmt mode = Ok NaN.
Proof.
  intros Hfmt Hw Hf Hb Hne Hrow Hz.
  rewrite (estimate_stages welch spectral_hr_fs_band
             _ _ _ _ _ _ _ _ Hfmt Hw Hf Hb).
  rewrite (flat_lead_mean_nan _ _ _ _ Hne Hrow Hz). simpl.
  now rewrite convert_nan.
Qed.

(** C9.  On a call that passes the entry checks with a band that meets the
    axis, every lead has a first (lowest-frequency) index of maximal power
    in the band-of-interest; these indices are the only ones with that
    property, so that bins of equal maximal power leave no choice; and the
    value the estimator returns is the one obtained with the mask of each
    lead placed at that index.  The estimator being a function of its
    arguments, two calls on the same input return the same value. *)
Theorem estimate_uses_first_maximum (sig : ndarray) (fs : Qc)
    (band : option (list Qc)) (fmt mode : string) (freqs : list Qc)
    (psd : list (list Qc)) (b : Qc * Qc) :
  valid_layout fmt ->
  welch (channel_first fmt sig) fs = Ok (freqs, psd) ->
  _check_feasibility freqs = Ok true ->
  band_bounds (or_default band spectral_hr_fs_band) = Ok b ->
  inds_of_interest b freqs <> [] ->
  exists peak_inds,
    Forall2 first_maximum (psd_of_interest b freqs psd) peak_inds /\
    (forall peak_inds',
       Forall2 first_maximum (psd_of_interest b freqs psd) peak_inds' ->
       peak_inds' = peak_inds) /\
    estimate sig fs band fmt mode
    = Ok (convert mode
            (Np.mean
               (centroids
                  (apply_mask (psd_of_interest b freqs psd)
                     (psd_mask (List.length (inds_of_interest b freqs))
                               peak_inds))
                  (freqs_of_interest b freqs)))).
Proof.
  intros Hfmt Hw Hf Hb Hne.
  destruct (peak_is_first_maximum freqs psd b Hne) as (peak_inds & Ha & Hp).
  exists peak_inds. split; [exact Hp|]. split.
  - intros peak_inds' Hp'.
    exact (first_maxima_unique _ _ _ Hp' Hp).
  - rewrite (estimate_stages welch spectral_hr_fs_band
               _ _ _ _ _ _ _ _ Hfmt Hw Hf Hb).
    unfold mean_peak_frequency, psd_of_interest, freqs_of_interest.
    rewrite Ha. reflexivity.
Qed.

End MoreProperties.

(** * The wave delineation reader *)

Module LudbFacts.

Import Ludb.
Local Open Scope list_scope.
Local Open Scope ludb_scope.

Lemma mapM_ext_return {A B : Type} (f : A -> outcome B) (g : A -> B)
    (l : list A) :
  (forall x, In x l -> f x = Return (g x)) ->
  mapM f l = Return (map g l).
Proof.
  induction l as [|x l IH]; intros H; simpl; [reflexivity|].
  rewrite (H x (or_introl eq_refl)). simpl.
  rewrite IH by (intros y Hy; apply H; now right). reflexivity.
Qed.

Lemma getitem_nth {A : Type} (a : list A) (i : nat) (d : A) :
  (i < List.length a)%nat -> getitem a i = Return (nth i a d).
Proof.
  intros H. unfold getitem.
  destruct (nth_error a i) as [x|] eqn:E.
  - now rewrite (nth_error_nth _ _ d E).
  - apply nth_error_None in E. lia.
Qed.

Lemma getitem_out {A : Type} (a : list A) (i : nat) :
  (List.length a <= i)%nat ->
  getitem a i = Throw (IndexError i (List.length a)).
Proof.
  intros H. unfold getitem.
  now rewrite (proj2 (nth_error_None a i) H).
Qed.

(** The positions found by the scan: in range, and holding one of the
    values. *)
Lemma where_isin_spec (pre symbols values : list string) (i : nat) :
  In i (where_isin symbols values (List.length pre)) ->
  (List.length pre <= i < List.length (pre ++ symbols))%nat /\
  str_in (nth i (pre ++ symbols) "") values = true.
Proof.
  revert pre. induction symbols as [|s t IH]; intros pre H; [destruct H|].
  assert (Hshift : pre ++ s :: t = (pre ++ [s]) ++ t)
    by now rewrite <- app_assoc.
  assert (Hlen : List.length (pre ++ [s]) = S (List.length pre))
    by (rewrite length_app; simpl; lia).
  simpl in H. destruct (str_in s values) eqn:E.
  - destruct H as [<-|H].
    + rewrite length_app, nth_middle. simpl. split; [lia | exact E].
    + rewrite <- Hlen in H. apply IH in H. rewrite Hshift.
      rewrite Hlen in H. split; [lia | tauto].
  - rewrite <- Hlen in H. apply IH in H. rewrite Hshift.
    rewrite Hlen in H. split; [lia | tauto].
Qed.

Lemma where_isin_in (symbols values : list string) (i : nat) :
  In i (where_isin symbols values 0) ->
  (i < List.length symbols)%nat /\ str_in (nth i symbols "") values = true.
Proof.
  intros H. destruct (where_isin_spec [] symbols values i H) as [H1 H2].
  simpl in *. split; [lia | exact H2].
Qed.

(** The symbols at the positions found are the symbols that are one of
    the values, in their order. *)
Lemma where_isin_filter (pre symbols values : list string) :
  map (fun i => nth i (pre ++ symbols) "")
      (where_isin symbols values (List.length pre))
  = filter (fun s => str_in s values) symbols.
Proof.
  revert pre. induction symbols as [|s t IH]; intros pre; [reflexivity|].
  assert (Hshift : pre ++ s :: t = (pre ++ [s]) ++ t)
    by now rewrite <- app_assoc.
  assert (Hlen : List.length (pre ++ [s]) = S (List.length pre))
    by (rewrite length_app; simpl; lia).
  simpl. destruct (str_in s values) eqn:E; simpl.
  - rewrite nth_middle. f_equal. rewrite Hshift, <- Hlen. apply IH.
  - rewrite Hshift, <- Hlen. apply IH.
Qed.

Lemma lookup_wavename (s : string) :
  str_in s peak_symbols = true ->
  lookup _symbol_to_wavename s = Return (wavename s).
Proof.
  intros H. apply str_in_iff in H.
  destruct H as [<-|[<-|[<-|[]]]]; reflexivity.
Qed.

(** One turn of the first loop, in an annotation of at least two entries. *)
Lemma delineate_spec (ann : Annotation) (i : nat) :
  List.length (sample ann) = List.length (symbol ann) ->
  (2 <= List.length (symbol ann))%nat ->
  (i < List.length (symbol ann))%nat ->
  delineate (symbol ann) (sample ann) i (nth i (sample ann) 0%Z)
  = Return (onset (wave_of ann i), offset (wave_of ann i)).
Proof.
  intros Hlen H2 Hi. unfold delineate, wave_of. cbn [onset offset].
  destruct (Nat.ltb_spec 0 i) as [H0|H0];
    destruct (Nat.ltb_spec (S i) (List.length (symbol ann))) as [H1|H1];
    destruct (Nat.eqb_spec i 0) as [E0|E0]; try lia;
    destruct (Z.eqb_spec (Z.of_nat i)
                (Z.of_nat (List.length (symbol ann)) - 1)) as [E1|E1];
    try lia; cbn [andb]; replace (i + 1)%nat with (S i) by lia.
  - (* a peak strictly inside *)
    rewrite (getitem_nth (symbol ann) (i - 1) "") by lia. cbn [and_then].
    rewrite (getitem_nth (symbol ann) (S i) "") by lia.
    destruct (String.eqb (nth (i - 1) (symbol ann) "") "(");
      rewrite ?(getitem_nth (sample ann) (i - 1) 0%Z) by lia;
      cbn [and_then];
      destruct (String.eqb (nth (S i) (symbol ann) "") ")");
      rewrite ?(getitem_nth (sample ann) (S i) 0%Z) by lia;
      reflexivity.
  - (* the last annotation *)
    rewrite (getitem_nth (symbol ann) (i - 1) "") by lia. cbn [and_then].
    destruct (String.eqb _ "("); [|reflexivity].
    rewrite (getitem_nth (sample ann) (i - 1) 0%Z) by lia. reflexivity.
  - (* the first annotation *)
    subst i.
    rewrite (getitem_nth (symbol ann) 1 "") by lia. cbn [and_then].
    destruct (String.eqb _ ")"); [|reflexivity].
    rewrite (getitem_nth (sample ann) 1 0%Z) by lia. reflexivity.
Qed.

Lemma combine_map_r {A B : Type} (g : A -> B) (l : list A) :
  combine l (map g l) = map (fun x => (x, g x)) l.
Proof. induction l; simpl; [reflexivity | now f_equal]. Qed.

Lemma combine_map_lr {A B C : Type} (f : A -> B) (g : A -> C) (l : list A) :
  combine (map f l) (map g l) = map (fun x => (f x, g x)) l.
Proof. induction l; simpl; [reflexivity | now f_equal]. Qed.

Lemma lead_waves_closed_form (ann : Annotation) :
  List.length (sample ann) = List.length (symbol ann) ->
  (2 <= List.length (symbol ann))%nat ->
  lead_waves ann
  = Return (map (wave_of ann) (where_isin (symbol ann) peak_symbols 0)).
Proof.
  intros Hlen H2. unfold lead_waves.
  fold peak_symbols.
  set (inds := where_isin (symbol ann) peak_symbols 0).
  assert (Hin : forall i, In i inds ->
            (i < List.length (symbol ann))%nat /\
            str_in (nth i (symbol ann) "") peak_symbols = true)
    by (intros i; apply where_isin_in).
  rewrite (mapM_ext_return _ (fun i => nth i (sample ann) 0%Z)).
  2:{ intros i Hi. apply getitem_nth. destruct (Hin i Hi). lia. }
  cbn [and_then]. rewrite combine_map_r.
  rewrite (mapM_ext_return _
             (fun row => (onset (wave_of ann (fst row)),
                          offset (wave_of ann (fst row))))).
  2:{ intros [i pk] Hrow. apply in_map_iff in Hrow.
      destruct Hrow as (i' & E & Hi). injection E as -> <-.
      cbn [fst snd]. apply delineate_spec; auto. now destruct (Hin i Hi). }
  cbn [and_then]. rewrite map_map. cbn [fst]. rewrite combine_map_lr.
  rewrite (mapM_ext_return _ (fun row => wave_of ann (fst (fst row)))).
  2:{ intros [[i pk] [on off]] Hrow. apply in_map_iff in Hrow.
      destruct Hrow as (i' & E & Hi). injection E as -> <- <- <-.
      destruct (Hin i Hi) as [Hi1 Hi2].
      rewrite (getitem_nth (symbol ann) i "") by exact Hi1. cbn [and_then].
      rewrite (lookup_wavename _ Hi2). reflexivity. }
  now rewrite map_map.
Qed.

(** The three-way loop amounts to one rule.  For an annotation of at least
    two entries the reader returns one wave per peak symbol, in order; the
    onset of a wave is the sample of the entry just before its peak when
    that entry is an opening bracket, its offset the sample of the entry
    just after its peak when that entry is a closing bracket, and the
    sample of the peak itself otherwise; its duration is the offset minus
    the onset, times the 2 ms between samples. *)
Theorem lead_waves_rule (ann : Annotation) :
  List.length (sample ann) = List.length (symbol ann) ->
  (2 <= List.length (symbol ann))%nat ->
  lead_waves ann
  = Return (map (wave_of ann) (where_isin (symbol ann) peak_symbols 0)).
Proof. apply lead_waves_closed_form. Qed.


Lemma lead_waves_short (ann : Annotation) :
  where_isin (symbol ann) peak_symbols 0 = [] -> lead_waves ann = Return [].
Proof.
  intros H. unfold lead_waves. fold peak_symbols. rewrite H. reflexivity.
Qed.

Lemma where_isin_single (s : string) :
  where_isin [s] peak_symbols 0
  = if str_in s peak_symbols then [0%nat] else [].
Proof. reflexivity. Qed.

Lemma lead_waves_single_peak_cases (ann : Annotation) :
  List.length (sample ann) = List.length (symbol ann) ->
  ((exists s, symbol ann = [s] /\ str_in s peak_symbols = true) ->
   lead_waves ann = Throw (IndexError 1 1)) /\
  (~ (exists s, symbol ann = [s] /\ str_in s peak_symbols = true) ->
   exists ws, lead_waves ann = Return ws).
Proof.
  intros Hlen. split.
  - intros (s & Hs & Hp). destruct ann as [symbols samples].
    cbn [symbol sample] in *. subst symbols.
    destruct samples as [|x [|y t]]; try discriminate.
    unfold lead_waves. cbn [symbol sample where_isin].
    change (str_in s ["p"; "N"; "t"]) with (str_in s peak_symbols).
    rewrite Hp. reflexivity.
  - intros Hno. destruct (symbol ann) as [|s [|s' t]] eqn:E.
    + exists []. apply lead_waves_short. now rewrite E.
    + exists []. apply lead_waves_short. rewrite E, where_isin_single.
      destruct (str_in s peak_symbols) eqn:Hp; [|reflexivity].
      exfalso. apply Hno. eauto.
    + eexists. rewrite <- E in *. apply lead_waves_closed_form; [exact Hlen|].
      rewrite E. simpl. lia.
Qed.

(** The reader fails on exactly one kind of annotation: a single entry
    that is a peak.  The first branch of the loop then reads the symbol
    after it, which does not exist, and the error is an [IndexError]; every
    other annotation is read. *)
Theorem lead_waves_fails_only_on_single_peak (ann : Annotation) :
  List.length (sample ann) = List.length (symbol ann) ->
  ((exists s, symbol ann = [s] /\ str_in s peak_symbols = true) ->
   lead_waves ann = Throw (IndexError 1 1)) /\
  (~ (exists s, symbol ann = [s] /\ str_in s peak_symbols = true) ->
   exists ws, lead_waves ann = Return ws).
Proof. apply lead_waves_single_peak_cases. Qed.

(** Whenever the reader returns, it returns one wave per peak symbol of
    the annotation, in the order of the annotation, each named after its
    symbol: [qrs] for [N], [pwave] for [p], [twave] for [t]. *)
Theorem lead_waves_names (ann : Annotation) (ws : list ECGWaveForm) :
  List.length (sample ann) = List.length (symbol ann) ->
  lead_waves ann = Return ws ->
  map name ws
  = map wavename (filter (fun s => str_in s peak_symbols) (symbol ann)).
Proof.
  intros Hlen H.
  destruct (Nat.le_gt_cases 2 (List.length (symbol ann))) as [H2|H2].
  - rewrite (lead_waves_closed_form ann Hlen H2) in H. injection H as <-.
    rewrite map_map. cbn [wave_of name].
    rewrite <- (where_isin_filter [] (symbol ann) peak_symbols).
    now rewrite map_map.
  - destruct (lead_waves_single_peak_cases ann Hlen) as [Hf _].
    destruct (symbol ann) as [|s [|s' t]] eqn:E; simpl in H2; try lia.
    + rewrite lead_waves_short in H by now rewrite E.
      injection H as <-. reflexivity.
    + cbn [filter]. destruct (str_in s peak_symbols) eqn:Hp.
      * rewrite Hf in H by eauto. discriminate.
      * rewrite lead_waves_short in H
          by (now rewrite E, where_isin_single, Hp).
        injection H as <-. reflexivity.
Qed.

Lemma sorted_nth (l : list Z) (i j : nat) :
  StronglySorted Z.le l ->
  (i <= j)%nat -> (j < List.length l)%nat ->
  (nth i l 0 <= nth j l 0)%Z.
Proof.
  intros Hs. revert i j. induction Hs as [|x l Hs IH Hall]; intros i j Hij Hj.
  - simpl in Hj. lia.
  - destruct i as [|i], j as [|j]; simpl in *; try lia.
    + rewrite Forall_forall in Hall. apply Hall. apply nth_In. lia.
    + apply IH; lia.
Qed.

Lemma spacing_pos : (0 < spacing)%Qc.
Proof. reflexivity. Qed.

Lemma duration_nonneg (on off : Z) :
  (on <= off)%Z -> (0 <= of_Z (off - on) * spacing)%Qc.
Proof.
  intros H. pose proof spacing_pos as Hs.
  assert (H0 : (0 <= of_Z (off - on))%Qc).
  { unfold of_Z. qc2q. change 0%Q with (inject_Z 0).
    rewrite <- Zle_Qle. lia. }
  generalize dependent (of_Z (off - on)). intros v Hv.
  generalize dependent spacing. intros sp Hsp. qc2q. nra.
Qed.

(** When the samples of the annotation are in time order, every wave has
    its onset at or before its peak, its offset at or after it, and a
    duration that is not negative. *)
Theorem lead_waves_ordered (ann : Annotation) (ws : list ECGWaveForm) :
  List.length (sample ann) = List.length (symbol ann) ->
  StronglySorted Z.le (sample ann) ->
  lead_waves ann = Return ws ->
  Forall (fun w => (onset w <= peak w)%Z /\ (peak w <= offset w)%Z /\
                   (0 <= duration w)%Qc) ws.
Proof.
  intros Hlen Hs H.
  destruct (Nat.le_gt_cases 2 (List.length (symbol ann))) as [H2|H2].
  - rewrite (lead_waves_closed_form ann Hlen H2) in H. injection H as <-.
    apply Forall_map. apply Forall_forall. intros i Hi.
    apply where_isin_in in Hi. destruct Hi as [Hi _].
    assert (Hon : (onset (wave_of ann i) <= nth i (sample ann) 0)%Z).
    { unfold wave_of. cbn [onset].
      destruct ((0 <? i)%nat && _); [|lia].
      apply sorted_nth; auto; lia. }
    assert (Hoff : (nth i (sample ann) 0 <= offset (wave_of ann i))%Z).
    { unfold wave_of. cbn [offset].
      destruct (Nat.ltb_spec (S i) (List.length (symbol ann))) as [H1|H1];
        cbn [andb]; [|lia].
      destruct (String.eqb _ _); [|lia].
      apply sorted_nth; auto; lia. }
    split; [exact Hon|]. split; [exact Hoff|].
    change (0 <= of_Z (offset (wave_of ann i) - onset (wave_of ann i))
                 * spacing)%Qc.
    apply duration_nonneg. eapply Z.le_trans; eassumption.
  - destruct (lead_waves_single_peak_cases ann Hlen) as [Hf _].
    destruct (symbol ann) as [|s [|s' t]] eqn:E; simpl in H2; try lia.
    + rewrite lead_waves_short in H by now rewrite E.
      injection H as <-. constructor.
    + destruct (str_in s peak_symbols) eqn:Hp.
      * rewrite Hf in H by eauto. discriminate.
      * rewrite lead_waves_short in H
          by (now rewrite E, where_isin_single, Hp).
        injection H as <-. constructor.
Qed.

(** Inside any annotation, a delimited run of waves is read as those
    waves. *)
Lemma wave_of_delimited (pre_s : list string) (pre_x : list Z)
    (ts : list (string * (Z * Z * Z))) :
  List.length pre_x = List.length pre_s ->
  Forall (fun t => str_in (fst t) peak_symbols = true) ts ->
  map (wave_of {| symbol := pre_s ++ symbol (delimited ts);
                  sample := pre_x ++ sample (delimited ts) |})
      (where_isin (symbol (delimited ts)) peak_symbols (List.length pre_s))
  = map wave_of_triple ts.
Proof.
  intros Hlen Hts. revert pre_s pre_x Hlen.
  induction Hts as [|[s [[on pk] off]] ts Hs _ IH]; intros pre_s pre_x Hlen;
    [reflexivity|].
  cbn [fst] in Hs.
  change (symbol (delimited ((s, (on, pk, off)) :: ts)))
    with ("(" :: s :: ")" :: symbol (delimited ts)).
  change (sample (delimited ((s, (on, pk, off)) :: ts)))
    with (on :: pk :: off :: sample (delimited ts)).
  cbn [where_isin].
  change (str_in "(" peak_symbols) with false.
  change (str_in ")" peak_symbols) with false. rewrite Hs.
  cbn [map]. f_equal.
  - set (n := List.length pre_s).
    assert (Hs1 : forall k d rest,
              nth (n + k) (pre_s ++ rest) d = nth k rest d).
    { intros k d rest. rewrite app_nth2 by lia. f_equal. lia. }
    assert (Hx1 : forall k d rest,
              nth (n + k) (pre_x ++ rest) d = nth k rest d).
    { intros k d rest. rewrite app_nth2 by lia. f_equal. lia. }
    unfold wave_of, wave_of_triple. cbn [symbol sample].
    replace (S n - 1)%nat with (n + 0)%nat by lia.
    replace (S (S n)) with (n + 2)%nat by lia.
    replace (S n) with (n + 1)%nat by lia.
    rewrite !Hs1, !Hx1. cbn [nth].
    destruct (Nat.ltb_spec 0 (n + 1)) as [_|]; [|lia].
    destruct (Nat.ltb_spec (n + 2)
                (List.length (pre_s ++ "(" :: s :: ")" :: symbol (delimited ts))))
      as [_|H]; [|rewrite length_app in H; simpl in H; lia].
    reflexivity.
  - specialize (IH (pre_s ++ ["("; s; ")"]) (pre_x ++ [on; pk; off])).
    rewrite !length_app in IH. cbn [List.length] in IH.
    rewrite <- !app_assoc in IH. cbn [app] in IH.
    replace (S (S (S (List.length pre_s))))
      with (List.length pre_s + 3)%nat by lia.
    apply IH. lia.
Qed.

(** Round trip: a fully delimited annotation is read back as exactly the
    waves it was written from, with the duration of each computed from its
    bounds. *)
Theorem lead_waves_delimited (ts : list (string * (Z * Z * Z))) :
  Forall (fun t => str_in (fst t) peak_symbols = true) ts ->
  lead_waves (delimited ts) = Return (map wave_of_triple ts).
Proof.
  intros Hts. destruct ts as [|t ts'] eqn:E; [reflexivity|]. rewrite <- E in *.
  assert (Hls : forall l : list (string * (Z * Z * Z)),
            List.length (sample (delimited l)) = List.length (symbol (delimited l))).
  { induction l as [|[s [[on pk] off]] l IHl]; [reflexivity|].
    cbn [delimited symbol sample flat_map fst snd app List.length] in *.
    now rewrite IHl. }
  rewrite lead_waves_closed_form.
  - f_equal.
    exact (wave_of_delimited [] [] ts eq_refl Hts).
  - apply Hls.
  - subst ts. destruct t as [s [[on pk] off]]. simpl. lia.
Qed.

(** ** The units of a signal *)

Lemma notnan_fmax (x y : float64) :
  notnan (fmax x y) = notnan x && notnan y.
Proof. destruct x, y; reflexivity. Qed.

Lemma ltb_qmax (c a b : Qc) : ltb c (qmax a b) = ltb c a || ltb c b.
Proof.
  unfold qmax. destruct (leb a b) eqn:E.
  - apply leb_le in E. destruct (ltb c a) eqn:Ea; [|reflexivity].
    apply ltb_lt in Ea. apply ltb_lt. eapply Qclt_le_trans; eassumption.
  - apply leb_false_lt in E. destruct (ltb c b) eqn:Eb;
      [|now rewrite orb_false_r].
    apply ltb_lt in Eb. rewrite orb_true_r. apply ltb_lt.
    eapply Qclt_trans; eassumption.
Qed.

Lemma fgt_fmax (x y : float64) (c : Qc) :
  notnan x = true -> notnan y = true ->
  fgt (fmax x y) c = fgt x c || fgt y c.
Proof.
  destruct x as [a| | |], y as [b| | |]; intros Hx Hy;
    try discriminate; cbn [fmax fgt];
    rewrite ?orb_true_r, ?orb_false_r; try reflexivity.
  apply ltb_qmax.
Qed.

(** The maximum exceeds [c] exactly when no value is [nan] and some
    value exceeds [c]. *)
Lemma fold_fmax_gt (t : list float64) (x : float64) (c : Qc) :
  fgt (fold_left fmax t x) c
  = forallb notnan (x :: t) && existsb (fun y => fgt y c) (x :: t).
Proof.
  revert x. induction t as [|a t IH]; intros x.
  - cbn [fold_left forallb existsb]. rewrite andb_true_r, orb_false_r.
    destruct x; reflexivity.
  - cbn [fold_left]. rewrite IH. cbn [forallb existsb].
    rewrite notnan_fmax.
    destruct (notnan x) eqn:Hx; [|reflexivity].
    destruct (notnan a) eqn:Ha; [|reflexivity].
    rewrite (fgt_fmax x a c Hx Ha). cbn [andb]. now rewrite orb_assoc.
Qed.

Lemma notnan_fabs (x : float64) : notnan (fabs x) = notnan x.
Proof. destruct x; reflexivity. Qed.

Lemma notnan_false (x : float64) : notnan x = false <-> x = NaN.
Proof. destruct x; split; intros H; try discriminate; reflexivity. Qed.

Lemma fgt_fabs (x : float64) (c : Qc) :
  fgt (fabs x) c = true <-> exceeds c x.
Proof.
  destruct x; cbn [fabs fgt exceeds]; try tauto.
  - apply ltb_lt.
  - split; [discriminate | intros []].
Qed.

Lemma forallb_false {A : Type} (f : A -> bool) (l : list A) :
  forallb f l = false <-> exists x, In x l /\ f x = false.
Proof.
  induction l as [|a l IH]; cbn [forallb].
  - split; [discriminate | intros (x & [] & _)].
  - rewrite andb_false_iff, IH. split.
    + intros [H|(x & Hx & Hf)]; [exists a | exists x]; split; auto;
        [now left | now right].
    + intros (x & [<-|Hx] & Hf); [now left | right; eauto].
Qed.

Lemma existsb_false {A : Type} (f : A -> bool) (l : list A) :
  existsb f l = false <-> forall x, In x l -> f x = false.
Proof.
  induction l as [|a l IH]; cbn [existsb].
  - split; [intros _ x [] | reflexivity].
  - rewrite orb_false_iff, IH. split.
    + intros [Ha Hl] x [<-|Hx]; auto.
    + intros H. split; [apply H; now left | intros x Hx; apply H; now right].
Qed.

Lemma cells_in (a : farray) (x : float64) :
  In x (cells a) <->
  exists i j, (i < fst (fshape a))%nat /\ (j < snd (fshape a))%nat /\
              x = fitem a i j.
Proof.
  unfold cells. rewrite in_flat_map. split.
  - intros (i & Hi & Hx). apply in_seq in Hi. apply in_map_iff in Hx.
    destruct Hx as (j & <- & Hj). apply in_seq in Hj.
    exists i, j. repeat split; lia.
  - intros (i & j & Hi & Hj & ->). exists i. split.
    + apply in_seq. lia.
    + apply in_map. apply in_seq. lia.
Qed.

Lemma forallb_over_map {A B : Type} (g : A -> B) (f : B -> bool)
    (l : list A) :
  forallb f (map g l) = forallb (fun x => f (g x)) l.
Proof. induction l as [|a l IH]; simpl; [reflexivity | now rewrite IH]. Qed.

Lemma existsb_over_map {A B : Type} (g : A -> B) (f : B -> bool)
    (l : list A) :
  existsb f (map g l) = existsb (fun x => f (g x)) l.
Proof. induction l as [|a l IH]; simpl; [reflexivity | now rewrite IH]. Qed.

Lemma forallb_same {A : Type} (f g : A -> bool) (l : list A) :
  (forall x, f x = g x) -> forallb f l = forallb g l.
Proof.
  intros H. induction l as [|a l IH]; simpl; [reflexivity|].
  now rewrite H, IH.
Qed.

(** The answer of [_auto_infer_units] on an array that has cells. *)
Lemma auto_infer_units_cases (data : farray) :
  cells data <> [] ->
  _auto_infer_units data
  = Return (if forallb notnan (cells data)
               && existsb (fun x => fgt (fabs x) _MAX_mV) (cells data)
            then "μV" else "mV").
Proof.
  intros Hne. unfold _auto_infer_units.
  destruct (cells data) as [|x t]; [congruence|].
  cbn [map np_max and_then]. rewrite fold_fmax_gt.
  change (fabs x :: map fabs t) with (map fabs (x :: t)).
  rewrite forallb_over_map, existsb_over_map.
  rewrite (forallb_same _ notnan (x :: t) notnan_fabs).
  now destruct (forallb notnan (x :: t) && _).
Qed.

(** [_auto_infer_units] raises on an array without cells.  Otherwise it
    answers [μV] exactly when no cell is [nan] and the absolute value of
    some cell exceeds 20; it answers [mV] exactly when some cell is [nan],
    whatever the others hold, or no absolute value exceeds 20, the value
    20 included. *)
Theorem auto_infer_units_threshold (data : farray) :
  (cells data = [] ->
   _auto_infer_units data
   = Throw (ValueError
       "zero-size array to reduction operation maximum which has no identity"))
  /\
  (cells data <> [] ->
   (_auto_infer_units data = Return "μV" <->
    (forall i j, (i < fst (fshape data))%nat -> (j < snd (fshape data))%nat ->
                 fitem data i j <> NaN) /\
    (exists i j, (i < fst (fshape data))%nat /\ (j < snd (fshape data))%nat /\
                 exceeds (of_Z 20) (fitem data i j))) /\
   (_auto_infer_units data = Return "mV" <->
    (exists i j, (i < fst (fshape data))%nat /\ (j < snd (fshape data))%nat /\
                 fitem data i j = NaN) \/
    (forall i j, (i < fst (fshape data))%nat -> (j < snd (fshape data))%nat ->
                 ~ exceeds (of_Z 20) (fitem data i j)))).
Proof.
  split.
  - intros H. unfold _auto_infer_units. now rewrite H.
  - intros Hne. rewrite (auto_infer_units_cases data Hne).
    unfold _MAX_mV.
    destruct (forallb notnan (cells data)) eqn:Hall;
      destruct (existsb (fun x => fgt (fabs x) (of_Z 20)) (cells data))
        eqn:Hex; cbn [andb].
    + (* no nan, some cell exceeds 20 *)
      rewrite forallb_forall in Hall. apply existsb_exists in Hex.
      destruct Hex as (x & Hx & Hgt). apply fgt_fabs in Hgt.
      apply cells_in in Hx. destruct Hx as (i0 & j0 & Hi0 & Hj0 & ->).
      split.
      * split; [intros _|reflexivity]. split; [|eauto 6].
        intros i j Hi Hj E.
        assert (Hin : In (fitem data i j) (cells data))
          by (apply cells_in; eauto 6).
        apply Hall in Hin. rewrite E in Hin. discriminate.
      * split; [discriminate|]. intros [(i & j & Hi & Hj & E)|H].
        -- assert (Hin : In (fitem data i j) (cells data))
             by (apply cells_in; eauto 6).
           apply Hall in Hin. rewrite E in Hin. discriminate.
        -- exfalso. exact (H i0 j0 Hi0 Hj0 Hgt).
    + (* no nan, no cell exceeds 20 *)
      rewrite existsb_false in Hex. split.
      * split; [discriminate|]. intros [_ (i & j & Hi & Hj & Hgt)].
        apply fgt_fabs in Hgt. rewrite Hex in Hgt; [discriminate|].
        apply cells_in. eauto 6.
      * split; [intros _|reflexivity]. right. intros i j Hi Hj Hgt.
        apply fgt_fabs in Hgt. rewrite Hex in Hgt; [discriminate|].
        apply cells_in. eauto 6.
    + (* some cell is nan *)
      apply forallb_false in Hall. destruct Hall as (x & Hx & Hn).
      apply notnan_false in Hn. subst x.
      apply cells_in in Hx. destruct Hx as (i0 & j0 & Hi0 & Hj0 & E).
      split.
      * split; [discriminate|]. intros [H _]. exfalso.
        exact (H i0 j0 Hi0 Hj0 (eq_sym E)).
      * split; [intros _|reflexivity]. left. eauto 6.
    + apply forallb_false in Hall. destruct Hall as (x & Hx & Hn).
      apply notnan_false in Hn. subst x.
      apply cells_in in Hx. destruct Hx as (i0 & j0 & Hi0 & Hj0 & E).
      split.
      * split; [discriminate|]. intros [H _]. exfalso.
        exact (H i0 j0 Hi0 Hj0 (eq_sym E)).
      * split; [intros _|reflexivity]. left. eauto 6.
Qed.

End LudbFacts.

(** ** The further properties on concrete inputs *)

Lemma band_order_irrelevant_witness :
  Permutation [qc 3 2; qc 4 5] [qc 4 5; qc 3 2] /\
  spectral_heart_rate
    (fixed_psd freqs5 [[qc 1 1; qc 2 1; qc 5 1; qc 4 1; qc 1 1]])
    default_band sig_1x8 (qc 4 1) (Some [qc 3 2; qc 4 5]) "channel_first" "hr"
  = spectral_heart_rate
      (fixed_psd freqs5 [[qc 1 1; qc 2 1; qc 5 1; qc 4 1; qc 1 1]])
      default_band sig_1x8 (qc 4 1) (Some [qc 4 5; qc 3 2])
      "channel_first" "hr".
Proof.
  assert (P : Permutation [qc 3 2; qc 4 5] [qc 4 5; qc 3 2])
    by apply perm_swap.
  split; [exact P|].
  exact (band_order_irrelevant _ default_band sig_1x8 (qc 4 1)
           "channel_first" "hr" _ _ P).
Defined.

Lemma unrecognised_mode_skips_conversion_witness :
  ~ heart_rate_mode "bpm" /\
  ~ rr_interval_mode "bpm" /\
  spectral_heart_rate
    (fixed_psd freqs5 [[qc 1 1; qc 2 1; qc 5 1; qc 4 1; qc 1 1]])
    default_band sig_1x8 (qc 4 1) None "channel_first" "hr"
  = (f <- spectral_heart_rate
            (fixed_psd freqs5 [[qc 1 1; qc 2 1; qc 5 1; qc 4 1; qc 1 1]])
            default_band sig_1x8 (qc 4 1) None "channel_first" "bpm" ;;
     Ok (fmul (Fin (of_Z 60)) f)).
Proof.
  assert (H1 : ~ heart_rate_mode "bpm") by (vm_compute; discriminate).
  assert (H2 : ~ rr_interval_mode "bpm") by (vm_compute; discriminate).
  split; [exact H1|]. split; [exact H2|].
  exact (unrecognised_mode_skips_conversion _ default_band sig_1x8 (qc 4 1)
           None "channel_first" "bpm" "hr" H1 H2 eq_refl).
Defined.

Lemma heart_rate_within_band_witness :
  exists hr,
    spectral_heart_rate
      (fixed_psd freqs5 [[qc 1 1; qc 2 1; qc 5 1; qc 4 1; qc 1 1]])
      default_band sig_1x8 (qc 4 1) None "channel_first" "hr"
    = Ok (Fin hr) /\
    (of_Z 60 * fst (qc 1 2, qc 4 1) <= hr)%Qc /\
    (hr <= of_Z 60 * snd (qc 1 2, qc 4 1))%Qc.
Proof.
  apply (heart_rate_within_band
           (fixed_psd freqs5 [[qc 1 1; qc 2 1; qc 5 1; qc 4 1; qc 1 1]])
           default_band sig_1x8 (qc 4 1) None "channel_first" "hr" freqs5
           [[qc 1 1; qc 2 1; qc 5 1; qc 4 1; qc 1 1]] (qc 1 2, qc 4 1)).
  - reflexivity.
  - reflexivity.
  - reflexivity.
  - reflexivity.
  - discriminate.
  - intros row [<-|[]]. split.
    + intros i Hi. vm_compute in Hi.
      destruct Hi as [<-|[<-|[<-|[<-|[]]]]]; vm_compute; discriminate.
    + exists 1%nat. split; [vm_compute; auto | reflexivity].
  - reflexivity.
Defined.

Lemma flat_lead_gives_nan_witness :
  In [qc 0 1; qc 0 1; qc 0 1; qc 0 1; qc 0 1]
     [[qc 0 1; qc 0 1; qc 0 1; qc 0 1; qc 0 1];
      [qc 1 1; qc 2 1; qc 5 1; qc 4 1; qc 1 1]] /\
  spectral_heart_rate
    (fixed_psd freqs5 [[qc 0 1; qc 0 1; qc 0 1; qc 0 1; qc 0 1];
                       [qc 1 1; qc 2 1; qc 5 1; qc 4 1; qc 1 1]])
    default_band sig_2x8 (qc 4 1) None "channel_first" "hr"
  = Ok NaN.
Proof.
  assert (Hin : In [qc 0 1; qc 0 1; qc 0 1; qc 0 1; qc 0 1]
                   [[qc 0 1; qc 0 1; qc 0 1; qc 0 1; qc 0 1];
                    [qc 1 1; qc 2 1; qc 5 1; qc 4 1; qc 1 1]])
    by now left.
  split; [exact Hin|].
  apply (flat_lead_gives_nan
           (fixed_psd freqs5 [[qc 0 1; qc 0 1; qc 0 1; qc 0 1; qc 0 1];
                              [qc 1 1; qc 2 1; qc 5 1; qc 4 1; qc 1 1]])
           default_band sig_2x8 (qc 4 1) None "channel_first" "hr" freqs5
           [[qc 0 1; qc 0 1; qc 0 1; qc 0 1; qc 0 1];
            [qc 1 1; qc 2 1; qc 5 1; qc 4 1; qc 1 1]]
           (qc 1 2, qc 4 1) [qc 0 1; qc 0 1; qc 0 1; qc 0 1; qc 0 1]).
  - reflexivity.
  - reflexivity.
  - reflexivity.
  - reflexivity.
  - vm_compute. discriminate.
  - exact Hin.
  - intros i Hi. vm_compute in Hi.
    destruct Hi as [<-|[<-|[<-|[<-|[]]]]]; reflexivity.
Defined.

Lemma power_scale_invariance_witness :
  (0 < qc 4 1)%Qc /\
  mean_peak_frequency freqs5
    (map (map (Qcmult (qc 4 1))) [[qc 1 1; qc 2 1; qc 5 1; qc 4 1; qc 1 1]])
    (qc 1 2, qc 4 1)
  = mean_peak_frequency freqs5 [[qc 1 1; qc 2 1; qc 5 1; qc 4 1; qc 1 1]]
      (qc 1 2, qc 4 1).
Proof.
  assert (H : (0 < qc 4 1)%Qc) by reflexivity.
  split; [exact H|].
  exact (power_scale_invariance (qc 4 1) freqs5
           [[qc 1 1; qc 2 1; qc 5 1; qc 4 1; qc 1 1]] (qc 1 2, qc 4 1) H).
Defined.

(** Two bins of equal maximal power, at 1 Hz and at 1.5 Hz: the peak is
    the bin at 1 Hz, and the estimate is the centroid of the bins at 0.5
    and 1 Hz, 360/7 beats per minute; with the peak at 1.5 Hz it would be
    75. *)
Example tie_selects_lower_peak :
  spectral_heart_rate
    (fixed_psd freqs5 [[qc 1 1; qc 2 1; qc 5 1; qc 5 1; qc 1 1]])
    default_band sig_1x8 (qc 4 1) None "channel_first" "hr"
  = Ok (Fin (qc 360 7)).
Proof. eval_fin. Qed.

Lemma estimate_uses_first_maximum_witness :
  inds_of_interest (qc 1 2, qc 4 1) freqs5 <> [] /\
  exists peak_inds,
    Forall2 first_maximum
      (psd_of_interest (qc 1 2, qc 4 1) freqs5
         [[qc 1 1; qc 2 1; qc 5 1; qc 5 1; qc 1 1]]) peak_inds /\
    (forall peak_inds',
       Forall2 first_maximum
         (psd_of_interest (qc 1 2, qc 4 1) freqs5
            [[qc 1 1; qc 2 1; qc 5 1; qc 5 1; qc 1 1]]) peak_inds' ->
       peak_inds' = peak_inds) /\
    spectral_heart_rate
      (fixed_psd freqs5 [[qc 1 1; qc 2 1; qc 5 1; qc 5 1; qc 1 1]])
      default_band sig_1x8 (qc 4 1) None "channel_first" "hr"
    = Ok (convert "hr"
            (Np.mean
               (centroids
                  (apply_mask
                     (psd_of_interest (qc 1 2, qc 4 1) freqs5
                        [[qc 1 1; qc 2 1; qc 5 1; qc 5 1; qc 1 1]])
                     (psd_mask
                        (List.length
                           (inds_of_interest (qc 1 2, qc 4 1) freqs5))
                        peak_inds))
                  (freqs_of_interest (qc 1 2, qc 4 1) freqs5)))).
Proof.
  assert (H : inds_of_interest (qc 1 2, qc 4 1) freqs5 <> [])
    by (vm_compute; discriminate).
  split; [exact H|].
  exact (estimate_uses_first_maximum
           (fixed_psd freqs5 [[qc 1 1; qc 2 1; qc 5 1; qc 5 1; qc 1 1]])
           default_band sig_1x8 (qc 4 1) None "channel_first" "hr" freqs5
           [[qc 1 1; qc 2 1; qc 5 1; qc 5 1; qc 1 1]] (qc 1 2, qc 4 1)
           eq_refl eq_refl eq_refl eq_refl H).
Defined.

Lemma lead_waves_rule_witness :
  (2 <= List.length (Ludb.symbol ann_example))%nat /\
  Ludb.lead_waves ann_example
  = Ludb.Return (map (Ludb.wave_of ann_example) [1; 4; 6]%nat).
Proof.
  assert (H : (2 <= List.length (Ludb.symbol ann_example))%nat)
    by (simpl; lia).
  split; [exact H|].
  exact (LudbFacts.lead_waves_rule ann_example eq_refl H).
Defined.

Lemma lead_waves_fails_only_on_single_peak_witness :
  (exists s, Ludb.symbol ann_single_peak = [s] /\
             str_in s Ludb.peak_symbols = true) /\
  Ludb.lead_waves ann_single_peak = Ludb.Throw (Ludb.IndexError 1 1).
Proof.
  assert (H : exists s, Ludb.symbol ann_single_peak = [s] /\
                        str_in s Ludb.peak_symbols = true)
    by (exists "N"; split; reflexivity).
  split; [exact H|].
  exact (proj1 (LudbFacts.lead_waves_fails_only_on_single_peak
                  ann_single_peak eq_refl) H).
Defined.

Lemma lead_waves_names_witness :
  exists ws,
    Ludb.lead_waves ann_example = Ludb.Return ws /\
    map Ludb.name ws = ["pwave"; "qrs"; "twave"].
Proof.
  eexists. split; [vm_compute; reflexivity|].
  refine (LudbFacts.lead_waves_names ann_example _ eq_refl _).
  vm_compute. reflexivity.
Defined.

Lemma lead_waves_ordered_witness :
  StronglySorted Z.le (Ludb.sample ann_example) /\
  exists ws,
    Ludb.lead_waves ann_example = Ludb.Return ws /\
    Forall (fun w => (Ludb.onset w <= Ludb.peak w)%Z /\
                     (Ludb.peak w <= Ludb.offset w)%Z /\
                     (0 <= Ludb.duration w)%Qc) ws.
Proof.
  assert (Hs : StronglySorted Z.le (Ludb.sample ann_example)).
  { unfold ann_example. cbn [Ludb.sample]. repeat constructor; lia. }
  split; [exact Hs|].
  eexists. split; [vm_compute; reflexivity|].
  refine (LudbFacts.lead_waves_ordered ann_example _ eq_refl Hs _).
  vm_compute. reflexivity.
Defined.

Lemma lead_waves_delimited_witness :
  Forall (fun t => str_in (fst t) Ludb.peak_symbols = true)
         [("p", (10, 20, 30)%Z); ("N", (40, 50, 60)%Z)] /\
  Ludb.lead_waves
    (Ludb.delimited [("p", (10, 20, 30)%Z); ("N", (40, 50, 60)%Z)])
  = Ludb.Return
      (map Ludb.wave_of_triple [("p", (10, 20, 30)%Z); ("N", (40, 50, 60)%Z)]).
Proof.
  assert (H : Forall (fun t => str_in (fst t) Ludb.peak_symbols = true)
                     [("p", (10, 20, 30)%Z); ("N", (40, 50, 60)%Z)])
    by (repeat constructor).
  split; [exact H|].
  exact (LudbFacts.lead_waves_delimited _ H).
Defined.

(** A [nan] sample beside a sample of 1000: the answer is [mV]. *)
Lemma auto_infer_units_threshold_witness :
  Ludb.cells (of_frows 0 8 []) = [] /\
  Ludb._auto_infer_units (of_frows 0 8 [])
  = Ludb.Throw (Ludb.ValueError
      "zero-size array to reduction operation maximum which has no identity")
  /\
  Ludb.cells data_nan <> [] /\
  Ludb._auto_infer_units data_nan = Ludb.Return "mV" /\
  Ludb._auto_infer_units data_large = Ludb.Return "μV".
Proof.
  assert (Hne : Ludb.cells data_nan <> []) by (vm_compute; discriminate).
  assert (Hne' : Ludb.cells data_large <> []) by (vm_compute; discriminate).
  split; [reflexivity|]. split.
  - exact (proj1 (LudbFacts.auto_infer_units_threshold (of_frows 0 8 []))
             eq_refl).
  - split; [exact Hne|]. split.
    + apply (proj2 (proj2 (proj2 (LudbFacts.auto_infer_units_threshold
                                    data_nan) Hne))).
      left. exists 0%nat, 0%nat. repeat split; simpl; lia.
    + apply (proj2 (proj1 (proj2 (LudbFacts.auto_infer_units_threshold
                                    data_large) Hne'))).
      split.
      * intros i j Hi Hj. cbn [data_large of_frows Ludb.fshape fst snd] in Hi, Hj.
        assert (i = 0)%nat as -> by lia.
        do 2 (destruct j as [|j]; [vm_compute; discriminate|]). lia.
      * exists 0%nat, 1%nat. split; [simpl; lia|]. split; [simpl; lia|].
        reflexivity.
Defined.
